(** * AQS: history normalisation and relevance ranking

    A shallow embedding of [deprecated/aqs_cli.py]: the two pure cores
    [read_history] (windowing and deduplication of the shell history) and
    [sort_by_similarity] (the tiered scoring and the stable sort on its key),
    together with the Python string primitives they call.

    Strings are sequences of code points below 256 (Latin-1); on this
    range [str.lower] maps each code point to one code point. *)

From Stdlib Require Import ZArith QArith Lqa List Ascii String Lia Permutation Sorted.
From stdpp Require Import gmap strings list sorting.

Local Open Scope list_scope.

(** ** Python strings *)

Definition str := list ascii.

(** A literal, as written in the source. *)
Definition lit (s : string) : str := list_ascii_of_string s.

Definition ord (c : ascii) : N := N_of_ascii c.
Definition chr (n : N) : ascii := ascii_of_N n.

Definition TAB : ascii := chr 9.
Definition LF : ascii := chr 10.
Definition CR : ascii := chr 13.
Definition SPACE : ascii := chr 32.
Definition SLASH : ascii := chr 47.
Definition COLON : ascii := chr 58.

(** Code points with a lower-case mapping: A-Z, and in the upper half
    U+00C0-U+00DE without the multiplication sign U+00D7. *)
Definition is_cased_upper (n : N) : bool :=
  ((65 <=? n) && (n <=? 90) || (192 <=? n) && (n <=? 222) && negb (n =? 215))%N.

Definition char_lower (c : ascii) : ascii :=
  if is_cased_upper (ord c) then chr (ord c + 32) else c.

(** [s.lower()] *)
Definition lower (s : str) : str := map char_lower s.

(** [c.isspace()]: U+0009-U+000D, U+001C-U+0020, U+0085, U+00A0. *)
Definition isspace (c : ascii) : bool :=
  let n := ord c in
  ((9 <=? n) && (n <=? 13) || (28 <=? n) && (n <=? 32) || (n =? 133) || (n =? 160))%N.

(** The line boundaries of [str.splitlines]. *)
Definition is_linebreak (c : ascii) : bool :=
  let n := ord c in
  ((10 <=? n) && (n <=? 13) || (28 <=? n) && (n <=? 30) || (n =? 133))%N.

Fixpoint str_eqb (a b : str) : bool :=
  match a, b with
  | [], [] => true
  | x :: a', y :: b' => Ascii.eqb x y && str_eqb a' b'
  | _, _ => false
  end.

(** [len(s)], a Python int. *)
Definition len {A} (l : list A) : Z := Z.of_nat (length l).

(** Truthiness of a sequence: [if l], [if not l]. *)
Definition truthy {A} (l : list A) : bool :=
  match l with [] => false | _ :: _ => true end.

(** [s.startswith(p)] *)
Fixpoint startswith (s p : str) {struct p} : bool :=
  match p with
  | [] => true
  | x :: p' =>
      match s with
      | [] => false
      | y :: s' => Ascii.eqb y x && startswith s' p'
      end
  end.

(** [s.find(sub)], with [None] for the -1 of Python. *)
Fixpoint find (s sub : str) : option nat :=
  if startswith s sub then Some 0%nat
  else match s with
       | [] => None
       | _ :: s' => option_map S (find s' sub)
       end.

(** [sub in s] *)
Definition contains (s sub : str) : bool :=
  match find s sub with Some _ => true | None => false end.

(** [x in words] on a list of strings. *)
Definition list_contains (words : list str) (x : str) : bool :=
  existsb (str_eqb x) words.

(** [s.split()]: the maximal runs of non-whitespace. [cur] is the run being
    read. *)
Fixpoint split_ws (s cur : str) : list str :=
  match s with
  | [] => if truthy cur then [cur] else []
  | c :: s' =>
      if isspace c
      then (if truthy cur then cur :: split_ws s' [] else split_ws s' [])
      else split_ws s' (cur ++ [c])
  end.

Definition split (s : str) : list str := split_ws s [].

(** [s.split(sep, 1)] *)
Fixpoint split_once (sep : ascii) (s cur : str) : list str :=
  match s with
  | [] => [cur]
  | c :: s' => if Ascii.eqb c sep then [cur; s'] else split_once sep s' (cur ++ [c])
  end.

Fixpoint lstrip_by (p : ascii -> bool) (s : str) : str :=
  match s with
  | [] => []
  | c :: s' => if p c then lstrip_by p s' else s
  end.

Definition rstrip_by (p : ascii -> bool) (s : str) : str :=
  rev (lstrip_by p (rev s)).

(** [s.strip()] *)
Definition strip (s : str) : str := rstrip_by isspace (lstrip_by isspace s).

(** [s.rstrip(chars)] for a one-character [chars]. *)
Definition rstrip_char (c : ascii) (s : str) : str := rstrip_by (Ascii.eqb c) s.

(** [s.splitlines()]: a CR LF pair is one boundary, and a final boundary
    opens no empty last line. *)
Fixpoint splitlines_from (s cur : str) : list str :=
  match s with
  | [] => if truthy cur then [cur] else []
  | c :: s' =>
      if Ascii.eqb c CR then
        match s' with
        | d :: s'' => if Ascii.eqb d LF then cur :: splitlines_from s'' []
                      else cur :: splitlines_from s' []
        | [] => cur :: splitlines_from s' []
        end
      else if is_linebreak c then cur :: splitlines_from s' []
      else splitlines_from s' (cur ++ [c])
  end.

Definition splitlines (s : str) : list str := splitlines_from s [].

(** ** Exceptions *)

Inductive exn : Set := IndexError | ValueError.

Inductive result (A : Type) : Type :=
| Ok (a : A)
| Raise (e : exn).

Arguments Ok {A} a.
Arguments Raise {A} e.

Definition bind {A B} (m : result A) (k : A -> result B) : result B :=
  match m with
  | Ok a => k a
  | Raise e => Raise e
  end.

Notation "x <- m ;; k" := (bind m (fun x => k))
  (at level 100, m at next level, right associativity).

(** [l[i]] for a non-negative literal index. *)
Definition getitem {A} (l : list A) (i : nat) : result A :=
  match nth_error l i with
  | Some a => Ok a
  | None => Raise IndexError
  end.

(** [s.index(sub)] *)
Definition index (s sub : str) : result nat :=
  match find s sub with
  | Some i => Ok i
  | None => Raise ValueError
  end.

(** A list comprehension whose element expression may raise. *)
Fixpoint comprehension {A B} (f : A -> result B) (l : list A) : result (list B) :=
  match l with
  | [] => Ok []
  | a :: l' => b <- f a ;; bs <- comprehension f l' ;; Ok (b :: bs)
  end.

(** A [for] loop updating one local variable. *)
Fixpoint for_each {A S} (body : S -> A -> result S) (s : S) (l : list A) : result S :=
  match l with
  | [] => Ok s
  | a :: l' => s' <- body s a ;; for_each body s' l'
  end.

(** [l[k:]] for an arbitrary integer [k]. *)
Definition slice_from {A} (k : Z) (l : list A) : list A :=
  let start := if (k <? 0)%Z then Z.max (len l + k) 0 else Z.min k (len l) in
  skipn (Z.to_nat start) l.

(** ** [list.sort(key=...)]

    A stable sort that compares keys with [<] only; the keys of this program
    are pairs. *)

(** [a < b] on tuples [(float, int)]: the first components decide unless
    they are equal. *)
Definition tuple_lt (a b : Q * Z) : bool :=
  if Qeq_bool (fst a) (fst b) then (snd a <? snd b)%Z
  else negb (Qle_bool (fst b) (fst a)).

Section Sort.
Context {A K : Type} (key : A -> K) (lt : K -> K -> bool).

Fixpoint insert_sorted (x : A) (l : list A) : list A :=
  match l with
  | [] => [x]
  | y :: l' => if lt (key y) (key x) then y :: insert_sorted x l' else x :: l
  end.

Fixpoint list_sort (l : list A) : list A :=
  match l with
  | [] => []
  | x :: l' => insert_sorted x (list_sort l')
  end.
End Sort.

(** ** The ranker: [sort_by_similarity] *)

Section Ranker.
(** [rapidfuzz.fuzz.partial_ratio], a similarity score between 0 and 100. *)
Variable partial_ratio : str -> str -> Q.

Definition score_item (query_lower item : str) : result (Q * Z) :=
  let item_lower := lower item in
  if str_eqb item_lower query_lower then Ok (1000%Q, 0%Z)
  else if startswith item_lower (query_lower ++ [SPACE])
          || startswith item_lower (query_lower ++ [TAB])
  then Ok (900%Q, len item)
  else if str_eqb item_lower query_lower then Ok (900%Q, 0%Z)
  else
    first_word <- (if truthy (split item_lower)
                   then getitem (split item_lower) 0 else Ok []) ;;
    if str_eqb first_word query_lower then Ok (850%Q, len item)
    else if startswith first_word query_lower then Ok (800%Q, len item)
    else
      let words := split item_lower in
      if list_contains words query_lower then Ok (700%Q, len item)
      else if contains item_lower (SPACE :: query_lower)
              || contains item_lower (SLASH :: query_lower)
      then Ok (600%Q, len item)
      else if contains item_lower query_lower then
        pos <- index item_lower query_lower ;;
        Ok (inject_Z (500 - Z.of_nat pos), len item)
      else
        let fuzzy_score := partial_ratio query_lower item_lower in
        Ok (fuzzy_score, len item).

(** The sort key [(-x[1][0], x[1][1])] of a scored item. *)
Definition sort_key (x : str * (Q * Z)) : Q * Z :=
  (Qopp (fst (snd x)), snd (snd x)).

(** [query] is [None] when the argument is absent. *)
Definition sort_by_similarity (query : option str) (items : list str)
  : result (list str) :=
  match query with
  | None => Ok items
  | Some query =>
      if negb (truthy query) then Ok items
      else
        let query_lower := lower query in
        scored <- comprehension
                    (fun item => sc <- score_item query_lower item ;; Ok (item, sc))
                    items ;;
        let scored := list_sort sort_key tuple_lt scored in
        Ok (map fst scored)
  end.
End Ranker.

(** ** The normaliser: [read_history] *)

(** What a path of the file system holds. *)
Inductive file : Type :=
| Missing                (* [p.exists()] is false *)
| Unreadable             (* [p.read_text] raises *)
| Text (text : str).

Definition fish_line (cmds : list str) (line : str) : result (list str) :=
  let line := strip line in
  if startswith line (lit "- cmd:") then
    rest <- getitem (split_once COLON line []) 1 ;;
    let cmd := strip rest in
    if truthy cmd then Ok (cmds ++ [cmd]) else Ok cmds
  else Ok cmds.

Definition plain_line (cmds : list str) (line : str) : result (list str) :=
  let line := rstrip_char LF line in
  if negb (truthy line) then Ok cmds
  else Ok (cmds ++ [line]).

Definition read_path (fs : str -> file) (cmds : list str) (p : str)
  : result (list str) :=
  match fs p with
  | Missing => Ok cmds
  | Unreadable => Ok cmds
  | Text text =>
      if contains p (lit "fish_history")
      then for_each fish_line cmds (splitlines text)
      else for_each plain_line cmds (splitlines text)
  end.

(** The tail window: [if len(cmds) > max_lines: cmds = cmds[-max_lines:]]. *)
Definition window (max_lines : Z) (cmds : list str) : list str :=
  if (len cmds >? max_lines)%Z then slice_from (- max_lines) cmds else cmds.

(** The deduplication loop over [reversed(cmds)], with its two locals. *)
Fixpoint dedupe_loop (l : list str) (seen : gset str) (uniq : list str) : list str :=
  match l with
  | [] => uniq
  | cmd :: l' =>
      if bool_decide (cmd ∈ seen) then dedupe_loop l' seen uniq
      else dedupe_loop l' ({[cmd]} ∪ seen) (uniq ++ [cmd])
  end.

Definition dedupe (cmds : list str) : list str :=
  dedupe_loop (rev cmds) ∅ [].

Definition read_history (fs : str -> file) (paths : list str) (max_lines : Z)
  : result (list str) :=
  cmds <- for_each (read_path fs) [] paths ;;
  let cmds := window max_lines cmds in
  Ok (dedupe cmds).

(** The default [max_lines=1000]. *)
Definition default_max_lines : Z := 1000.

(** ** The ranking policy, as the specification words it *)

(** [t] is a whitespace-delimited token: non-empty and free of whitespace. *)
Definition is_token (t : str) : Prop :=
  t <> [] /\ Forall (fun c => isspace c = false) t.

(** [s] is empty or begins with a whitespace character. *)
Definition at_boundary (s : str) : Prop :=
  s = [] \/ exists c r, s = c :: r /\ isspace c = true.

(** [s] is empty or ends with a whitespace character. *)
Definition ends_at_boundary (s : str) : Prop :=
  s = [] \/ exists r c, s = r ++ [c] /\ isspace c = true.

(** [t] is the first token of [e]: only whitespace precedes it. *)
Definition FirstToken (e t : str) : Prop :=
  exists ws rest,
    e = ws ++ t ++ rest /\ Forall (fun c => isspace c = true) ws /\
    is_token t /\ at_boundary rest.

(** [t] is some token of [e]. *)
Definition Token (e t : str) : Prop :=
  exists pre rest,
    e = pre ++ t ++ rest /\ ends_at_boundary pre /\ is_token t /\ at_boundary rest.

(** [q] occurs in [e] at character index [pos]. *)
Definition OccursAt (q e : str) (pos : nat) : Prop :=
  exists pre post, e = pre ++ q ++ post /\ length pre = pos.

Definition FirstOccurrence (q e : str) (pos : nat) : Prop :=
  OccursAt q e pos /\ forall p, (p < pos)%nat -> ~ OccursAt q e p.

Definition Substring (q e : str) : Prop := exists pos, OccursAt q e pos.

(** The eight rules of the precedence list, in their order. *)
Inductive rule : Set :=
| ExactMatch
| PrefixSeparator
| FirstTokenEquals
| FirstTokenStartsWith
| TokenEquals
| AfterBoundary
| SubstringAnywhere
| NoRelation.

Definition rule_number (r : rule) : nat :=
  match r with
  | ExactMatch => 1
  | PrefixSeparator => 2
  | FirstTokenEquals => 3
  | FirstTokenStartsWith => 4
  | TokenEquals => 5
  | AfterBoundary => 6
  | SubstringAnywhere => 7
  | NoRelation => 8
  end.

(** When a rule applies to the lower-cased query [q] and entry [e]. *)
Definition applies (r : rule) (q e : str) : Prop :=
  match r with
  | ExactMatch => e = q
  | PrefixSeparator =>
      exists c rest, (c = SPACE \/ c = TAB) /\ e = q ++ c :: rest
  | FirstTokenEquals => FirstToken e q
  | FirstTokenStartsWith => exists t suffix, FirstToken e t /\ t = q ++ suffix
  | TokenEquals => Token e q
  | AfterBoundary =>
      exists pre c post, (c = SPACE \/ c = SLASH) /\ e = pre ++ c :: q ++ post
  | SubstringAnywhere => Substring q e
  | NoRelation => True
  end.

(** Top-to-bottom evaluation, first match winning. *)
Definition first_match (q e : str) (r : rule) : Prop :=
  applies r q e /\
  forall r', (rule_number r' < rule_number r)%nat -> ~ applies r' q e.

(** The (tier, tiebreak) a rule gives to an entry of length [n]; [fuzzy] is
    the partial-similarity score of the pair. *)
Definition assigns (fuzzy : Q) (r : rule) (q e : str) (n : Z) (sc : Q * Z) : Prop :=
  match r with
  | ExactMatch => sc = (1000%Q, 0%Z)
  | PrefixSeparator => sc = (900%Q, n)
  | FirstTokenEquals => sc = (850%Q, n)
  | FirstTokenStartsWith => sc = (800%Q, n)
  | TokenEquals => sc = (700%Q, n)
  | AfterBoundary => sc = (600%Q, n)
  | SubstringAnywhere =>
      exists pos, FirstOccurrence q e pos /\
                  sc = (inject_Z (500 - Z.of_nat pos), n)
  | NoRelation => sc = (fuzzy, n) /\ (0 <= fuzzy <= 100)%Q
  end.

(** The score the ranker gives an entry, as a total function. *)
Definition score_of (partial_ratio : str -> str -> Q) (query_lower item : str)
  : Q * Z :=
  match score_item partial_ratio query_lower item with
  | Ok sc => sc
  | Raise _ => (0%Q, 0%Z)
  end.

(** Entries paired with their position in the input. *)
Definition indexed {A} (l : list A) : list (nat * A) :=
  combine (seq 0 (length l)) l.

(** The order of the output: descending tier, then ascending tiebreak, then
    ascending input position. *)
Definition ranks_before (score : str -> Q * Z) (x y : nat * str) : Prop :=
  let '(tx, bx) := score (snd x) in
  let '(ty, by_) := score (snd y) in
  (ty < tx)%Q \/
  ((tx == ty)%Q /\ (bx < by_)%Z) \/
  ((tx == ty)%Q /\ bx = by_ /\ (fst x < fst y)%nat).

(** ** The order of a stable sort *)

(** The order a stable sort produces on entries tagged with their input
    position: never a greater key first, and among equal keys the earlier
    position first. *)
Definition stable_before {A K} (key : A -> K) (lt : K -> K -> bool)
  (x y : nat * A) : Prop :=
  lt (key (snd y)) (key (snd x)) = false /\
  (lt (key (snd x)) (key (snd y)) = true \/ (fst x < fst y)%nat).

(** ** Deduplication, as the specification words it *)

(** Scanning [l] from its start, keep the first occurrence of each distinct
    text and drop every later one. *)
Fixpoint first_occurrences (l : list str) : list str :=
  match l with
  | [] => []
  | x :: l' => x :: filter (fun y => y <> x) (first_occurrences l')
  end.

(** ** History locations: [detect_history_paths] *)

(** A [pathlib] path in normal form: the components below the root. *)
Definition path := list str.

(** [str(p)] *)
Definition path_str (p : path) : str :=
  match p with
  | [] => [SLASH]
  | _ :: _ => flat_map (fun c => SLASH :: c) p
  end.

(** [prefer_shell is None or prefer_shell == shell] *)
Definition shell_wanted (prefer_shell : option str) (shell : str) : bool :=
  match prefer_shell with
  | None => true
  | Some s => str_eqb s shell
  end.

(** [home] is [Path.home()]. *)
Definition detect_history_paths (home : path) (prefer_shell : option str)
  : list path :=
  let paths := [] in
  let paths := if shell_wanted prefer_shell (lit "bash")
               then paths ++ [home ++ [lit ".bash_history"]] else paths in
  let paths := if shell_wanted prefer_shell (lit "zsh")
               then paths ++ [home ++ [lit ".zsh_history"]] else paths in
  let paths := if shell_wanted prefer_shell (lit "fish")
               then paths ++ [home ++ [lit ".local"; lit "share"; lit "fish";
                                        lit "fish_history"]]
               else paths in
  paths.

(** ** The picker and the command line: [call_fzf], [run_command], [main] *)

(** [sep.join(l)] *)
Fixpoint join (sep : str) (l : list str) : str :=
  match l with
  | [] => []
  | x :: l' =>
      match l' with
      | [] => x
      | _ :: _ => x ++ sep ++ join sep l'
      end
  end.

(** What the program does to the outside, in order. *)
Inductive event : Type :=
| Stderr (msg : str)                      (* [click.echo(msg, err=True)] *)
| Stdout (msg : str)                      (* [print(msg)] *)
| RunPicker (cmd : list str) (input : str)  (* [subprocess.run(cmd, input=...)] *)
| RunShell (cmd : str).                   (* [subprocess.run(cmd, shell=True)] *)

(** What the outside answers. *)
Record env : Type := {
  env_home : path;                        (* [Path.home()] *)
  env_fs : str -> file;                   (* the files *)
  env_which_fzf : option str;             (* [shutil.which('fzf')] *)
  (* the picker process: [None] when [subprocess.run] raises, else its
     return code and standard output *)
  env_picker : list str -> str -> option (Z * str);
  (* the shell process: its return code, or the text of the exception *)
  env_shell : str -> Z + str
}.

(** [if not x] for a value that is [None] or a string. *)
Definition absent (x : option str) : bool :=
  match x with
  | None => true
  | Some s => negb (truthy s)
  end.

Definition call_fzf (w : env) (items : list str) (initial_query : option str)
  (use_custom_sort : bool) : list event * option str :=
  match env_which_fzf w with
  | None => ([], None)
  | Some fzf =>
      if negb (truthy fzf) then ([], None)
      else
        let cmd := [fzf; lit "--ansi"; lit "--reverse"; lit "--tiebreak=index"] in
        let cmd := if use_custom_sort then cmd ++ [lit "--no-sort"] else cmd in
        let cmd := match initial_query with
                   | Some q => if truthy q then cmd ++ [lit "--query"; q] else cmd
                   | None => cmd
                   end in
        let input := join [LF] items in
        match env_picker w cmd input with
        | None => ([RunPicker cmd input], None)
        | Some (returncode, stdout) =>
            if negb (returncode =? 0)%Z then ([RunPicker cmd input], None)
            else ([RunPicker cmd input], Some (strip stdout))
        end
  end.

Definition run_command (w : env) (cmd : str) : list event * Z :=
  match env_shell w cmd with
  | inl returncode =>
      ([Stderr (lit "Running: " ++ cmd); RunShell cmd], returncode)
  | inr e =>
      ([Stderr (lit "Running: " ++ cmd); RunShell cmd;
        Stderr (lit "Error running command: " ++ e)], 1%Z)
  end.

(** [main]: the events in their order and the exit status, 0 when the
    function returns. *)
Definition main (partial_ratio : str -> str -> Q) (w : env)
  (query : option str) (dry_run : bool) : result (list event * Z) :=
  let paths := detect_history_paths (env_home w) None in
  items <- read_history (env_fs w) (map path_str paths) default_max_lines ;;
  if negb (truthy items) then Ok ([Stderr (lit "No history found.")], 2%Z)
  else
    items <- (if negb (absent query)
              then sort_by_similarity partial_ratio query items
              else Ok items) ;;
    let '(picked, selected) := call_fzf w items query (negb (absent query)) in
    match selected with
    | Some selected =>
        if negb (truthy selected) then
          Ok (picked ++
              (if absent (env_which_fzf w)
               then [Stderr (lit "fzf not found. Install fzf: brew install fzf")]
               else []), 1%Z)
        else if negb dry_run then
          let '(ran, returncode) := run_command w selected in
          Ok (picked ++ [Stdout selected] ++ ran, returncode)
        else Ok (picked ++ [Stdout selected], 0%Z)
    | None =>
        Ok (picked ++
            (if absent (env_which_fzf w)
             then [Stderr (lit "fzf not found. Install fzf: brew install fzf")]
             else []), 1%Z)
    end.

(** The characters [str.splitlines] breaks at never occur in [s]. *)
Definition one_line (s : str) : Prop :=
  Forall (fun c => is_linebreak c = false) s.

(** [s] neither starts nor ends with whitespace. *)
Definition stripped (s : str) : Prop :=
  (forall c r, s = c :: r -> isspace c = false) /\
  (forall r c, s = r ++ [c] -> isspace c = false).


(** * Properties of the string primitives *)

Lemma str_eqb_eq (a b : str) : str_eqb a b = true <-> a = b.
Proof.
  revert b. induction a as [|x a IH]; intros [|y b]; simpl; try (split; congruence).
  rewrite andb_true_iff, Ascii.eqb_eq, IH. split.
  - intros [-> ->]. reflexivity.
  - intros [= -> ->]. auto.
Qed.

Lemma str_eqb_refl (a : str) : str_eqb a a = true.
Proof. apply str_eqb_eq. reflexivity. Qed.

Lemma str_eqb_neq (a b : str) : str_eqb a b = false <-> a <> b.
Proof.
  rewrite <- str_eqb_eq. destruct (str_eqb a b); split; congruence.
Qed.


Lemma lower_nonempty (s : str) : s <> [] -> lower s <> [].
Proof. destruct s; simpl; congruence. Qed.

Lemma truthy_true {A} (l : list A) : truthy l = true <-> l <> [].
Proof. destruct l; simpl; split; congruence. Qed.

Lemma truthy_false {A} (l : list A) : truthy l = false <-> l = [].
Proof. destruct l; simpl; split; congruence. Qed.

Lemma startswith_spec (s p : str) :
  startswith s p = true <-> exists r, s = p ++ r.
Proof.
  revert s. induction p as [|x p IH]; intros s; simpl.
  - split; [intros _; exists s; reflexivity | reflexivity].
  - destruct s as [|y s].
    + split; [congruence | intros [r Hr]; discriminate].
    + rewrite andb_true_iff, Ascii.eqb_eq, IH. split.
      * intros [-> [r ->]]. eauto.
      * intros [r [= -> ->]]. eauto.
Qed.

Lemma startswith_app (p r : str) : startswith (p ++ r) p = true.
Proof. apply startswith_spec. eauto. Qed.

Lemma list_contains_spec (words : list str) (x : str) :
  list_contains words x = true <-> x ∈ words.
Proof.
  unfold list_contains. rewrite existsb_exists, list_elem_of_In. split.
  - intros [y [Hin Heq]]. apply str_eqb_eq in Heq. subst. exact Hin.
  - intros Hin. exists x. split; [exact Hin | apply str_eqb_refl].
Qed.

(** [find] returns the least index at which the pattern occurs. *)
Lemma occurs_at_0 (q e : str) : OccursAt q e 0 <-> startswith e q = true.
Proof.
  rewrite startswith_spec. split.
  - intros [pre [post [-> Hl]]]. destruct pre; [|discriminate]. eauto.
  - intros [r ->]. exists [], r. auto.
Qed.

Lemma occurs_at_S (q : str) (c : ascii) (e : str) (p : nat) :
  OccursAt q (c :: e) (S p) <-> OccursAt q e p.
Proof.
  split.
  - intros [pre [post [He Hl]]]. destruct pre as [|d pre]; [discriminate|].
    simpl in He, Hl. injection He as -> ->. exists pre, post. split; [reflexivity | lia].
  - intros [pre [post [-> Hl]]]. exists (c :: pre), post. simpl. split; [reflexivity | lia].
Qed.

Lemma occurs_at_nil (q : str) (p : nat) : OccursAt q [] p -> p = 0%nat.
Proof.
  intros [pre [post [He Hl]]]. destruct pre; [simpl in Hl; lia | discriminate].
Qed.

Lemma find_Some (s sub : str) (i : nat) :
  find s sub = Some i <-> FirstOccurrence sub s i.
Proof.
  revert i. induction s as [|c s IH]; intros i.
  - simpl. destruct (startswith [] sub) eqn:Hs.
    + split.
      * intros [= <-]. split; [apply occurs_at_0; exact Hs | intros; lia].
      * intros [Ho _]. apply occurs_at_nil in Ho. congruence.
    + split; [congruence|]. intros [Ho _].
      pose proof (occurs_at_nil _ _ Ho) as ->. apply occurs_at_0 in Ho. congruence.
  - cbn [find]. destruct (startswith (c :: s) sub) eqn:Hs.
    + split.
      * intros [= <-]. split; [apply occurs_at_0; exact Hs | intros; lia].
      * intros [_ Hmin]. destruct i as [|i]; [reflexivity|].
        exfalso. apply (Hmin 0%nat); [lia | apply occurs_at_0; exact Hs].
    + destruct i as [|i].
      * split.
        -- destruct (find s sub); simpl; congruence.
        -- intros [Ho _]. apply occurs_at_0 in Ho. congruence.
      * specialize (IH i). split.
        -- intros Hf. destruct (find s sub) as [j|] eqn:Hj; simpl in Hf; [|congruence].
           injection Hf as ->. destruct IH as [IH _]. destruct (IH eq_refl) as [Ho Hmin].
           split; [apply occurs_at_S; exact Ho|].
           intros [|p] Hp Hocc.
           ++ apply occurs_at_0 in Hocc. congruence.
           ++ apply occurs_at_S in Hocc. apply (Hmin p); [lia | exact Hocc].
        -- intros [Ho Hmin]. destruct IH as [_ IH]. rewrite IH; [reflexivity|].
           split; [apply occurs_at_S in Ho; exact Ho|].
           intros p Hp Hocc. apply (Hmin (S p)); [lia | apply occurs_at_S; exact Hocc].
Qed.

Lemma find_None (s sub : str) : find s sub = None <-> ~ Substring sub s.
Proof.
  split.
  - intros Hf [pos Ho]. revert pos Ho.
    induction s as [|c s IH]; intros pos Ho.
    + pose proof (occurs_at_nil _ _ Ho) as ->. apply occurs_at_0 in Ho.
      simpl in Hf. rewrite Ho in Hf. discriminate.
    + cbn [find] in Hf. destruct (startswith (c :: s) sub) eqn:Hs; [discriminate|].
      destruct pos as [|pos].
      * apply occurs_at_0 in Ho. congruence.
      * apply occurs_at_S in Ho. destruct (find s sub); [discriminate|].
        eapply IH; eauto.
  - intros Hn. destruct (find s sub) as [i|] eqn:Hf; [|reflexivity].
    exfalso. apply Hn. exists i. apply find_Some in Hf. apply Hf.
Qed.

Lemma contains_spec (s sub : str) : contains s sub = true <-> Substring sub s.
Proof.
  unfold contains. destruct (find s sub) as [i|] eqn:Hf.
  - split; [|reflexivity]. intros _. exists i. apply find_Some in Hf. apply Hf.
  - apply find_None in Hf. split; [congruence | contradiction].
Qed.

Lemma contains_false (s sub : str) : contains s sub = false <-> ~ Substring sub s.
Proof.
  rewrite <- contains_spec. destruct (contains s sub); split; congruence.
Qed.

Lemma substring_split (q e : str) :
  Substring q e <-> exists pre post, e = pre ++ q ++ post.
Proof.
  split.
  - intros [pos [pre [post [He _]]]]. eauto.
  - intros [pre [post He]]. exists (length pre), pre, post. auto.
Qed.

Lemma substring_trans (a b c : str) : Substring a b -> Substring b c -> Substring a c.
Proof.
  rewrite !substring_split. intros [p1 [s1 ->]] [p2 [s2 ->]].
  exists (p2 ++ p1), (s1 ++ s2). rewrite <- !app_assoc. reflexivity.
Qed.

(** ** [split]: the tokens of a string *)

Lemma split_ws_at_space (a : str) (c : ascii) (b cur : str) :
  isspace c = true ->
  split_ws (a ++ c :: b) cur = split_ws a cur ++ split_ws b [].
Proof.
  intros Hc. revert cur. induction a as [|x a IH]; intros cur; simpl.
  - rewrite Hc. destruct (truthy cur); reflexivity.
  - destruct (isspace x).
    + destruct (truthy cur); simpl; rewrite IH; reflexivity.
    + apply IH.
Qed.

Lemma split_ws_boundary (rest cur : str) :
  at_boundary rest ->
  split_ws rest cur = if truthy cur then cur :: split_ws rest [] else split_ws rest [].
Proof.
  intros [-> | [c [r [-> Hc]]]]; simpl.
  - destruct (truthy cur); reflexivity.
  - rewrite Hc. destruct (truthy cur); reflexivity.
Qed.

Lemma split_ws_run (t rest cur : str) :
  Forall (fun c => isspace c = false) t ->
  at_boundary rest ->
  split_ws (t ++ rest) cur =
  if truthy (cur ++ t) then (cur ++ t) :: split_ws rest [] else split_ws rest [].
Proof.
  intros Ht Hb. revert cur. induction Ht as [|x t Hx Ht IH]; intros cur.
  - simpl. rewrite app_nil_r. apply split_ws_boundary. exact Hb.
  - simpl. rewrite Hx. rewrite IH. rewrite <- app_assoc. reflexivity.
Qed.

Lemma split_ws_leading (ws s : str) :
  Forall (fun c => isspace c = true) ws ->
  split_ws (ws ++ s) [] = split_ws s [].
Proof.
  induction 1 as [|x ws Hx Hws IH]; simpl; [reflexivity|].
  rewrite Hx. exact IH.
Qed.

Lemma split_first_token (e t : str) :
  FirstToken e t -> exists l, split e = t :: l.
Proof.
  intros [ws [rest [-> [Hws [[Hne Ht] Hb]]]]].
  unfold split. rewrite split_ws_leading by exact Hws.
  rewrite split_ws_run by assumption. simpl.
  destruct t; [congruence|]. simpl. eauto.
Qed.

(** Every string starts with a (possibly empty) run of non-whitespace that
    stops at a boundary. *)
Lemma leading_run (s : str) :
  exists t rest,
    s = t ++ rest /\ Forall (fun c => isspace c = false) t /\ at_boundary rest.
Proof.
  induction s as [|c s [t [rest [-> [Ht Hb]]]]].
  - exists [], []. repeat split; [constructor | left; reflexivity].
  - destruct (isspace c) eqn:Hc.
    + exists [], (c :: t ++ rest). repeat split; [constructor|].
      right. eauto.
    + exists (c :: t), rest. repeat split; [constructor; assumption | exact Hb].
Qed.

Lemma first_token_or_blank (e : str) :
  (Forall (fun c => isspace c = true) e /\ split e = []) \/
  exists t, FirstToken e t.
Proof.
  induction e as [|c e IH].
  - left. split; [constructor | reflexivity].
  - destruct (isspace c) eqn:Hc.
    + destruct IH as [[Hall Hs] | [t [ws [rest [-> [Hws [Ht Hb]]]]]]].
      * left. split; [constructor; assumption|].
        unfold split in *. simpl. rewrite Hc. exact Hs.
      * right. exists t, (c :: ws), rest.
        repeat split; try assumption; try apply Ht. constructor; assumption.
    + right. destruct (leading_run e) as [t [rest [-> [Ht Hb]]]].
      exists (c :: t), [], rest. simpl.
      repeat split; try assumption; [constructor | congruence | constructor; assumption].
Qed.

Lemma first_token_split (e t : str) :
  FirstToken e t <-> exists l, split e = t :: l.
Proof.
  split; [apply split_first_token|].
  intros [l Hl]. destruct (first_token_or_blank e) as [[_ Hs] | [t' Ht']].
  - congruence.
  - destruct (split_first_token _ _ Ht') as [l' Hl']. congruence.
Qed.

Lemma split_nil_no_token (e t : str) : split e = [] -> ~ FirstToken e t.
Proof.
  intros Hs Ht. apply first_token_split in Ht as [l Hl]. congruence.
Qed.

Lemma spaces_end_at_boundary (ws : str) :
  Forall (fun c => isspace c = true) ws -> ends_at_boundary ws.
Proof.
  intros Hws. destruct ws as [|x ws _] using rev_ind; [left; reflexivity|].
  right. exists ws, x. split; [reflexivity|].
  apply Forall_app in Hws as [_ Hx]. inversion Hx; assumption.
Qed.

Lemma ends_at_boundary_app (a b : str) :
  b <> [] -> ends_at_boundary b -> ends_at_boundary (a ++ b).
Proof.
  intros Hne [-> | [r [c [-> Hc]]]]; [congruence|].
  right. exists (a ++ r), c. rewrite <- app_assoc. auto.
Qed.

Lemma token_split_1 (e t : str) : Token e t -> t ∈ split e.
Proof.
  intros [pre [rest [-> [Hpre [[Hne Ht] Hb]]]]].
  assert (Hrun : exists l, split (t ++ rest) = t :: l).
  { unfold split. rewrite split_ws_run by assumption. simpl.
    destruct t; [congruence|]. simpl. eauto. }
  destruct Hrun as [l Hl].
  destruct Hpre as [-> | [r [c [-> Hc]]]].
  - simpl. rewrite Hl. left.
  - unfold split in *. rewrite <- app_assoc. simpl.
    rewrite split_ws_at_space by exact Hc. rewrite Hl.
    apply elem_of_app. right. left.
Qed.

Lemma token_split_2 (n : nat) (e t : str) :
  (length e < n)%nat -> t ∈ split e -> Token e t.
Proof.
  revert e. induction n as [|n IH]; intros e Hlen Hin; [lia|].
  destruct (first_token_or_blank e) as [[_ Hs] | [t' Ht']].
  - rewrite Hs in Hin. inversion Hin.
  - destruct Ht' as [ws [rest [-> [Hws [[Hne Ht] Hb]]]]].
    unfold split in Hin. rewrite split_ws_leading in Hin by exact Hws.
    rewrite split_ws_run in Hin by assumption. simpl in Hin.
    destruct (truthy t') eqn:Htr; [|apply truthy_false in Htr; congruence].
    apply elem_of_cons in Hin as [-> | Hin].
    + exists ws, rest. repeat split; try assumption.
      apply spaces_end_at_boundary; exact Hws.
    + destruct Hb as [-> | [c [r [-> Hc]]]]; [inversion Hin|].
      simpl in Hin. rewrite Hc in Hin. simpl in Hin.
      assert (Hr : (length r < n)%nat).
      { rewrite !length_app in Hlen. simpl in Hlen. lia. }
      destruct (IH r Hr Hin) as [pre [post [-> [Hpre [Htok Hpost]]]]].
      exists (ws ++ t' ++ c :: pre), post. repeat split; try apply Htok; try assumption.
      * rewrite <- !app_assoc. reflexivity.
      * destruct Hpre as [-> | Hpre'].
        -- right. exists (ws ++ t'), c. rewrite <- app_assoc. auto.
        -- replace (ws ++ t' ++ c :: pre) with ((ws ++ t' ++ [c]) ++ pre)
             by (rewrite <- !app_assoc; reflexivity).
           apply ends_at_boundary_app; [|right; exact Hpre'].
           destruct Hpre' as [r' [c' [-> _]]]. destruct r'; discriminate.
Qed.

Lemma token_split (e t : str) : Token e t <-> t ∈ split e.
Proof.
  split; [apply token_split_1 | apply (token_split_2 (S (length e))); lia].
Qed.

(** A token of [e] is a substring of [e]. *)
Lemma token_substring (e t : str) : t ∈ split e -> Substring t e.
Proof.
  intros Hin. apply token_split in Hin as [pre [rest [-> _]]].
  apply substring_split. eauto.
Qed.

(** * The scoring function *)

Section Scoring.
Variable partial_ratio : str -> str -> Q.

(** The guarded [split()[0]] never raises. *)
Lemma first_word_ok (e : str) :
  (if truthy (split e) then getitem (split e) 0 else Ok []) = Ok (hd [] (split e)).
Proof. destruct (split e); reflexivity. Qed.

(** [score_item] without its exceptional paths: each guard protects the
    partial operation behind it. *)
Lemma score_item_eval (q item : str) :
  score_item partial_ratio q item =
  Ok (let e := lower item in
      let n := len item in
      if str_eqb e q then (1000%Q, 0%Z)
      else if startswith e (q ++ [SPACE]) || startswith e (q ++ [TAB]) then (900%Q, n)
      else if str_eqb (hd [] (split e)) q then (850%Q, n)
      else if startswith (hd [] (split e)) q then (800%Q, n)
      else if list_contains (split e) q then (700%Q, n)
      else if contains e (SPACE :: q) || contains e (SLASH :: q) then (600%Q, n)
      else match find e q with
           | Some pos => (inject_Z (500 - Z.of_nat pos), n)
           | None => (partial_ratio q e, n)
           end).
Proof.
  unfold score_item. cbv zeta.
  destruct (str_eqb (lower item) q) eqn:H1; [reflexivity|].
  destruct (startswith (lower item) (q ++ [SPACE]) || startswith (lower item) (q ++ [TAB]));
    [reflexivity|].
  rewrite first_word_ok. cbn [bind].
  destruct (str_eqb (hd [] (split (lower item))) q); [reflexivity|].
  destruct (startswith (hd [] (split (lower item))) q); [reflexivity|].
  destruct (list_contains (split (lower item)) q); [reflexivity|].
  destruct (contains (lower item) (SPACE :: q) || contains (lower item) (SLASH :: q));
    [reflexivity|].
  unfold contains, index. destruct (find (lower item) q); reflexivity.
Qed.

Lemma score_item_ok (q item : str) :
  score_item partial_ratio q item = Ok (score_of partial_ratio q item).
Proof.
  unfold score_of. rewrite score_item_eval. reflexivity.
Qed.

(** ** Each test of the code decides one rule of the policy *)

Lemma exact_test (q e : str) : str_eqb e q = true <-> applies ExactMatch q e.
Proof. apply str_eqb_eq. Qed.

Lemma prefix_test (q e : str) :
  startswith e (q ++ [SPACE]) || startswith e (q ++ [TAB]) = true
  <-> applies PrefixSeparator q e.
Proof.
  rewrite orb_true_iff, !startswith_spec. simpl. split.
  - intros [[r ->] | [r ->]]; [exists SPACE, r | exists TAB, r];
      rewrite <- app_assoc; auto.
  - intros [c [rest [[-> | ->] ->]]]; [left | right]; exists rest;
      rewrite <- app_assoc; reflexivity.
Qed.

Lemma first_token_test (q e : str) :
  q <> [] -> (str_eqb (hd [] (split e)) q = true <-> applies FirstTokenEquals q e).
Proof.
  intros Hq. rewrite str_eqb_eq. simpl. rewrite first_token_split. split.
  - destruct (split e) as [|t l]; simpl; [congruence|]. intros ->. eauto.
  - intros [l ->]. reflexivity.
Qed.

Lemma first_token_prefix_test (q e : str) :
  q <> [] ->
  (startswith (hd [] (split e)) q = true <-> applies FirstTokenStartsWith q e).
Proof.
  intros Hq. rewrite startswith_spec. simpl. split.
  - intros [r Hr]. destruct (split e) as [|t l] eqn:Hs; simpl in Hr.
    + destruct q; [congruence | discriminate].
    + exists t, r. split; [apply first_token_split; eauto | exact Hr].
  - intros [t [suffix [Ht ->]]]. apply first_token_split in Ht as [l ->]. simpl. eauto.
Qed.

Lemma token_test (q e : str) :
  list_contains (split e) q = true <-> applies TokenEquals q e.
Proof. rewrite list_contains_spec. simpl. symmetry. apply token_split. Qed.

Lemma boundary_test (q e : str) :
  contains e (SPACE :: q) || contains e (SLASH :: q) = true
  <-> applies AfterBoundary q e.
Proof.
  rewrite orb_true_iff, !contains_spec, !substring_split. simpl. split.
  - intros [[pre [post ->]] | [pre [post ->]]];
      [exists pre, SPACE, post | exists pre, SLASH, post]; auto.
  - intros [pre [c [post [[-> | ->] ->]]]]; [left | right]; exists pre, post; reflexivity.
Qed.

Lemma substring_test (q e : str) :
  (exists pos, find e q = Some pos) <-> applies SubstringAnywhere q e.
Proof.
  simpl. split.
  - intros [pos Hf]. apply find_Some in Hf. exists pos. apply Hf.
  - intros Hs. destruct (find e q) as [pos|] eqn:Hf; [eauto|].
    apply find_None in Hf. contradiction.
Qed.

(** ** The score under the first matching rule *)

Ltac no_earlier_rule :=
  let r := fresh "r" in
  let Hlt := fresh "Hlt" in
  intros r Hlt; destruct r; simpl in Hlt; try lia; assumption.

Lemma first_match_unique (q e : str) (r r' : rule) :
  first_match q e r -> first_match q e r' -> r = r'.
Proof.
  intros [Ha Hmin] [Ha' Hmin'].
  destruct (Nat.lt_trichotomy (rule_number r) (rule_number r')) as [Hlt | [Heq | Hgt]].
  - exfalso. exact (Hmin' r Hlt Ha).
  - destruct r, r'; simpl in Heq; congruence.
  - exfalso. exact (Hmin r' Hgt Ha').
Qed.

(** Following the tests of [score_item] in their order finds the first
    matching rule, and the value returned is the one that rule assigns. *)
Lemma score_of_first_match_raw (q item : str) :
  q <> [] ->
  exists r,
    first_match q (lower item) r /\
    match r with
    | NoRelation =>
        score_of partial_ratio q item = (partial_ratio q (lower item), len item)
    | _ =>
        assigns (partial_ratio q (lower item)) r q (lower item) (len item)
          (score_of partial_ratio q item)
    end.
Proof.
  intros Hq. unfold score_of. rewrite score_item_eval. cbv zeta.
  set (e := lower item).
  destruct (str_eqb e q) eqn:H1.
  { exists ExactMatch. split; [|reflexivity].
    split; [apply exact_test; exact H1 | no_earlier_rule]. }
  assert (N1 : ~ applies ExactMatch q e) by (rewrite <- exact_test; congruence).
  destruct (startswith e (q ++ [SPACE]) || startswith e (q ++ [TAB])) eqn:H2.
  { exists PrefixSeparator. split; [|reflexivity].
    split; [apply prefix_test; exact H2 | no_earlier_rule]. }
  assert (N2 : ~ applies PrefixSeparator q e) by (rewrite <- prefix_test; congruence).
  destruct (str_eqb (hd [] (split e)) q) eqn:H3.
  { exists FirstTokenEquals. split; [|reflexivity].
    split; [apply first_token_test; assumption | no_earlier_rule]. }
  assert (N3 : ~ applies FirstTokenEquals q e)
    by (rewrite <- first_token_test by exact Hq; congruence).
  destruct (startswith (hd [] (split e)) q) eqn:H4.
  { exists FirstTokenStartsWith. split; [|reflexivity].
    split; [apply first_token_prefix_test; assumption | no_earlier_rule]. }
  assert (N4 : ~ applies FirstTokenStartsWith q e)
    by (rewrite <- first_token_prefix_test by exact Hq; congruence).
  destruct (list_contains (split e) q) eqn:H5.
  { exists TokenEquals. split; [|reflexivity].
    split; [apply token_test; exact H5 | no_earlier_rule]. }
  assert (N5 : ~ applies TokenEquals q e) by (rewrite <- token_test; congruence).
  destruct (contains e (SPACE :: q) || contains e (SLASH :: q)) eqn:H6.
  { exists AfterBoundary. split; [|reflexivity].
    split; [apply boundary_test; exact H6 | no_earlier_rule]. }
  assert (N6 : ~ applies AfterBoundary q e) by (rewrite <- boundary_test; congruence).
  destruct (find e q) as [pos|] eqn:H7.
  { exists SubstringAnywhere. split.
    - split; [apply substring_test; eauto | no_earlier_rule].
    - exists pos. split; [apply find_Some; exact H7 | reflexivity]. }
  assert (N7 : ~ applies SubstringAnywhere q e).
  { rewrite <- substring_test. intros [pos Hp]. congruence. }
  exists NoRelation. split.
  - split; [exact I | no_earlier_rule].
  - reflexivity.
Qed.

Hypothesis partial_ratio_range :
  forall a b, (0 <= partial_ratio a b <= 100)%Q.

Lemma score_of_first_match (q item : str) :
  q <> [] ->
  exists r,
    first_match q (lower item) r /\
    assigns (partial_ratio q (lower item)) r q (lower item) (len item)
      (score_of partial_ratio q item).
Proof.
  intros Hq. destruct (score_of_first_match_raw q item Hq) as [r [Hfm Has]].
  exists r. split; [exact Hfm|].
  destruct r; try exact Has.
  split; [exact Has | apply partial_ratio_range].
Qed.

End Scoring.

(** * The stable sort *)

Section SortFacts.
Context {A K : Type} (key : A -> K) (lt : K -> K -> bool).

Lemma insert_sorted_perm (x : A) (l : list A) :
  Permutation (insert_sorted key lt x l) (x :: l).
Proof.
  induction l as [|y l IH]; simpl; [reflexivity|].
  destruct (lt (key y) (key x)); [|reflexivity].
  rewrite IH. apply perm_swap.
Qed.

Lemma list_sort_perm (l : list A) : Permutation (list_sort key lt l) l.
Proof.
  induction l as [|x l IH]; simpl; [reflexivity|].
  rewrite insert_sorted_perm, IH. reflexivity.
Qed.

(** Sorting commutes with forgetting a decoration the key does not read. *)
Lemma insert_sorted_map {B} (f : B -> A) (x : B) (l : list B) :
  map f (insert_sorted (fun b => key (f b)) lt x l) =
  insert_sorted key lt (f x) (map f l).
Proof.
  induction l as [|y l IH]; simpl; [reflexivity|].
  destruct (lt (key (f y)) (key (f x))); simpl; [rewrite IH|]; reflexivity.
Qed.

Lemma list_sort_map {B} (f : B -> A) (l : list B) :
  map f (list_sort (fun b => key (f b)) lt l) = list_sort key lt (map f l).
Proof.
  induction l as [|x l IH]; simpl; [reflexivity|].
  rewrite insert_sorted_map, IH. reflexivity.
Qed.

End SortFacts.

Section SortStable.
Context {A K : Type} (key : A -> K) (lt : K -> K -> bool).

(** [<] on keys is asymmetric and its complement is transitive. *)
Hypothesis lt_asym : forall a b, lt a b = true -> lt b a = false.
Hypothesis ge_trans : forall a b c, lt b a = false -> lt c b = false -> lt c a = false.

Lemma insert_sorted_stable (x : nat * A) (l : list (nat * A)) :
  Forall (fun y => (fst x < fst y)%nat) l ->
  StronglySorted (stable_before key lt) l ->
  StronglySorted (stable_before key lt) (insert_sorted (fun y => key (snd y)) lt x l).
Proof.
  intros Hpos Hs. induction Hs as [|y l Hs IH Hy]; simpl.
  - repeat constructor.
  - apply Forall_cons in Hpos as [Hxy Hpos].
    destruct (lt (key (snd y)) (key (snd x))) eqn:Hlt.
    + constructor; [apply IH; exact Hpos|].
      eapply Permutation_Forall; [symmetry; apply insert_sorted_perm|].
      constructor; [|exact Hy].
      split; [apply lt_asym; exact Hlt | left; exact Hlt].
    + constructor; [constructor; assumption|].
      constructor; [split; [exact Hlt | right; exact Hxy]|].
      rewrite Forall_forall in Hy, Hpos |- *. intros z Hz.
      destruct (Hy z Hz) as [Hzy _]. split.
      * eapply ge_trans; eassumption.
      * right. apply Hpos. exact Hz.
Qed.

Lemma list_sort_stable (l : list (nat * A)) :
  StronglySorted (fun x y => (fst x < fst y)%nat) l ->
  StronglySorted (stable_before key lt) (list_sort (fun y => key (snd y)) lt l).
Proof.
  induction 1 as [|x l Hs IH Hx]; simpl; [constructor|].
  apply insert_sorted_stable; [|exact IH].
  eapply Permutation_Forall; [symmetry; apply list_sort_perm | exact Hx].
Qed.

End SortStable.

Lemma combine_seq_sorted {A} (l : list A) (s : nat) :
  StronglySorted (fun x y : nat * A => (fst x < fst y)%nat)
    (combine (seq s (length l)) l)
  /\ Forall (fun y : nat * A => (s <= fst y)%nat) (combine (seq s (length l)) l).
Proof.
  revert s. induction l as [|a l IH]; intros s; simpl.
  - split; constructor.
  - destruct (IH (S s)) as [Hs Hf]. split.
    + constructor; [exact Hs|].
      eapply Forall_impl; [exact Hf|]. simpl. intros y Hy. lia.
    + constructor; [simpl; lia|].
      eapply Forall_impl; [exact Hf|]. simpl. intros y Hy. lia.
Qed.

Lemma indexed_sorted {A} (l : list A) :
  StronglySorted (fun x y : nat * A => (fst x < fst y)%nat) (indexed l).
Proof. apply combine_seq_sorted. Qed.

Lemma indexed_snd {A} (l : list A) : map snd (indexed l) = l.
Proof.
  unfold indexed. generalize 0%nat. induction l as [|a l IH]; intros s; simpl;
    [reflexivity | rewrite IH; reflexivity].
Qed.

Lemma indexed_map {A B} (f : A -> B) (l : list A) :
  indexed (map f l) = map (fun x => (fst x, f (snd x))) (indexed l).
Proof.
  unfold indexed. rewrite length_map. generalize 0%nat.
  induction l as [|a l IH]; intros s; simpl; [reflexivity | rewrite IH; reflexivity].
Qed.

(** ** The tuple order *)

Lemma tuple_lt_spec (a b : Q * Z) :
  tuple_lt a b = true <->
  (fst a < fst b)%Q \/ ((fst a == fst b)%Q /\ (snd a < snd b)%Z).
Proof.
  unfold tuple_lt. destruct (Qeq_bool (fst a) (fst b)) eqn:He.
  - apply Qeq_bool_iff in He. rewrite Z.ltb_lt. split; [auto|].
    intros [Hlt | [_ Hlt]]; [|exact Hlt]. rewrite He in Hlt.
    exfalso. exact (Qlt_irrefl _ Hlt).
  - assert (Hne : ~ (fst a == fst b)%Q).
    { intros Heq. apply Qeq_bool_iff in Heq. congruence. }
    rewrite negb_true_iff. split.
    + intros Hle. left. apply Qnot_le_lt. intros Hc.
      apply Qle_bool_iff in Hc. congruence.
    + intros [Hlt | [Heq _]]; [|contradiction].
      destruct (Qle_bool (fst b) (fst a)) eqn:Hle; [|reflexivity].
      apply Qle_bool_iff in Hle. exfalso. exact (Qlt_not_le _ _ Hlt Hle).
Qed.

Lemma tuple_lt_false (a b : Q * Z) :
  tuple_lt a b = false <->
  (fst b < fst a)%Q \/ ((fst a == fst b)%Q /\ (snd b <= snd a)%Z).
Proof.
  split.
  - intros Hf.
    destruct (Q_dec (fst a) (fst b)) as [[Hlt | Hgt] | Heq].
    + assert (tuple_lt a b = true) by (apply tuple_lt_spec; auto). congruence.
    + left. exact Hgt.
    + right. split; [exact Heq|].
      destruct (Z_lt_le_dec (snd a) (snd b)) as [Hlt | Hle]; [|exact Hle].
      assert (tuple_lt a b = true) by (apply tuple_lt_spec; auto). congruence.
  - intros H. destruct (tuple_lt a b) eqn:Ht; [|reflexivity].
    apply tuple_lt_spec in Ht. exfalso.
    destruct H as [Hgt | [Heq Hle]], Ht as [Hlt | [Heq' Hlt]].
    + exact (Qlt_irrefl _ (Qlt_trans _ _ _ Hgt Hlt)).
    + rewrite Heq' in Hgt. exact (Qlt_irrefl _ Hgt).
    + rewrite Heq in Hlt. exact (Qlt_irrefl _ Hlt).
    + lia.
Qed.

Lemma tuple_lt_asym (a b : Q * Z) : tuple_lt a b = true -> tuple_lt b a = false.
Proof.
  rewrite tuple_lt_spec, tuple_lt_false.
  intros [Hlt | [Heq Hlt]]; [left; exact Hlt | right].
  split; [symmetry; exact Heq | lia].
Qed.

Lemma tuple_ge_trans (a b c : Q * Z) :
  tuple_lt b a = false -> tuple_lt c b = false -> tuple_lt c a = false.
Proof.
  rewrite !tuple_lt_false.
  intros [H1 | [E1 L1]] [H2 | [E2 L2]].
  - left. exact (Qlt_trans _ _ _ H1 H2).
  - left. rewrite E2. exact H1.
  - left. rewrite <- E1. exact H2.
  - right. split; [rewrite E2; exact E1 | lia].
Qed.

(** * The ranker *)

Lemma space_char_lower (c : ascii) : isspace c = true -> char_lower c = c.
Proof.
  destruct c as [b0 b1 b2 b3 b4 b5 b6 b7].
  destruct b0, b1, b2, b3, b4, b5, b6, b7; vm_compute; congruence.
Qed.

Lemma blank_lower (s : str) :
  Forall (fun c => isspace c = true) s -> lower s = s.
Proof.
  unfold lower. induction 1 as [|c s Hc Hs IH]; simpl; [reflexivity|].
  rewrite space_char_lower by exact Hc. rewrite IH. reflexivity.
Qed.

Lemma blank_split (s : str) :
  Forall (fun c => isspace c = true) s -> split s = [].
Proof.
  intros Hs. unfold split. rewrite <- (app_nil_r s).
  rewrite split_ws_leading by exact Hs. reflexivity.
Qed.

Section Ranking.
Variable partial_ratio : str -> str -> Q.

Lemma scored_ok (q : str) (items : list str) :
  comprehension
    (fun item => sc <- score_item partial_ratio q item ;; Ok (item, sc)) items
  = Ok (map (fun item => (item, score_of partial_ratio q item)) items).
Proof.
  induction items as [|item items IH]; simpl; [reflexivity|].
  rewrite score_item_ok, IH. reflexivity.
Qed.

Lemma sort_by_similarity_eval (query : str) (items : list str) :
  query <> [] ->
  sort_by_similarity partial_ratio (Some query) items =
  Ok (map fst
        (list_sort sort_key tuple_lt
           (map (fun item => (item, score_of partial_ratio (lower query) item))
              items))).
Proof.
  intros Hq. unfold sort_by_similarity.
  destruct query; [congruence|]. cbn [truthy negb].
  rewrite scored_ok. reflexivity.
Qed.

Lemma scored_fst (q : str) (items : list str) :
  map fst (map (fun item => (item, score_of partial_ratio q item)) items) = items.
Proof.
  rewrite map_map. simpl. apply map_id.
Qed.

Lemma sort_by_similarity_perm (query : option str) (items : list str) :
  exists out,
    sort_by_similarity partial_ratio query items = Ok out /\ Permutation items out.
Proof.
  destruct query as [query|]; [|exists items; split; reflexivity].
  destruct (decide (query = [])) as [-> | Hq]; [exists items; split; reflexivity|].
  eexists. split; [apply sort_by_similarity_eval; exact Hq|].
  rewrite <- (scored_fst (lower query) items) at 1.
  apply Permutation_map. symmetry. apply list_sort_perm.
Qed.

(** C6. For every query, absent and empty ones included, the output of the
    ranker is a permutation of its input: the same multiset of strings and
    the same length, so no entry is dropped, added or altered. *)
Theorem rank_permutation (query : option str) (items : list str) :
  exists out,
    sort_by_similarity partial_ratio query items = Ok out /\
    Permutation items out /\
    length out = length items /\
    (forall x, count_occ (Stdlib.Lists.List.list_eq_dec ascii_dec) out x
               = count_occ (Stdlib.Lists.List.list_eq_dec ascii_dec) items x).
Proof.
  destruct (sort_by_similarity_perm query items) as [out [Hout Hperm]].
  exists out. split; [exact Hout|]. split; [exact Hperm|]. split.
  - symmetry. apply Permutation_length. exact Hperm.
  - intros x. apply Permutation_count_occ. symmetry. exact Hperm.
Qed.

(** C7. With an empty or an absent query the ranker returns its input
    list as it is: same elements, same order. *)
Theorem rank_empty_query_identity (items : list str) :
  sort_by_similarity partial_ratio (Some []) items = Ok items /\
  sort_by_similarity partial_ratio None items = Ok items.
Proof. split; reflexivity. Qed.

(** C8. The ranker never raises: it returns a list for every query and
    every input, the empty list for the empty input; scoring an entry never
    raises either, an entry the query is no substring of gets the fuzzy
    score, and an entry of whitespace only has no first word and is scored
    all the same. *)
Theorem rank_never_raises :
  (forall query items, exists out,
      sort_by_similarity partial_ratio query items = Ok out) /\
  (forall query, sort_by_similarity partial_ratio query [] = Ok []) /\
  (forall q item, exists sc, score_item partial_ratio q item = Ok sc) /\
  (forall q item,
      ~ Substring q (lower item) ->
      score_item partial_ratio q item
      = Ok (partial_ratio q (lower item), len item)) /\
  (forall q item,
      Forall (fun c => isspace c = true) item ->
      split (lower item) = [] /\
      exists sc, score_item partial_ratio q item = Ok sc).
Proof.
  split; [|split; [|split; [|split]]].
  - intros query items.
    destruct (sort_by_similarity_perm query items) as [out [Hout _]]. eauto.
  - intros [[|c q]|]; reflexivity.
  - intros q item. eexists. apply score_item_ok.
  - intros q item Hn. rewrite score_item_eval. cbv zeta. f_equal.
    set (e := lower item) in *.
    assert (H1 : str_eqb e q = false).
    { apply str_eqb_neq. intros ->. apply Hn.
      apply substring_split. exists [], []. rewrite app_nil_r. reflexivity. }
    assert (H2 : startswith e (q ++ [SPACE]) || startswith e (q ++ [TAB]) = false).
    { destruct (startswith e (q ++ [SPACE]) || startswith e (q ++ [TAB])) eqn:H;
        [|reflexivity]. exfalso. apply Hn.
      apply prefix_test in H as [c [rest [_ ->]]].
      apply substring_split. exists [], (c :: rest). reflexivity. }
    assert (Hhd : hd [] (split e) = [] \/ hd [] (split e) ∈ split e).
    { destruct (split e); simpl; [left; reflexivity | right; left]. }
    assert (H4 : startswith (hd [] (split e)) q = false).
    { destruct (startswith (hd [] (split e)) q) eqn:H; [|reflexivity]. exfalso. apply Hn.
      apply startswith_spec in H as [r Hr].
      destruct Hhd as [Hnil | Hin].
      - rewrite Hnil in Hr. destruct q; [|discriminate].
        apply substring_split. exists [], e. reflexivity.
      - apply (substring_trans _ (hd [] (split e))); [|apply token_substring; exact Hin].
        apply substring_split. exists [], r. exact Hr. }
    assert (H3 : str_eqb (hd [] (split e)) q = false).
    { destruct (str_eqb (hd [] (split e)) q) eqn:H; [|reflexivity].
      apply str_eqb_eq in H. rewrite H in H4.
      rewrite <- (app_nil_r q) in H4 at 1. rewrite startswith_app in H4. discriminate. }
    assert (H5 : list_contains (split e) q = false).
    { destruct (list_contains (split e) q) eqn:H; [|reflexivity]. exfalso. apply Hn.
      apply list_contains_spec in H. apply token_substring. exact H. }
    assert (H6 : contains e (SPACE :: q) || contains e (SLASH :: q) = false).
    { destruct (contains e (SPACE :: q) || contains e (SLASH :: q)) eqn:H;
        [|reflexivity]. exfalso. apply Hn.
      apply boundary_test in H as [pre [c [post [_ ->]]]].
      apply substring_split. exists (pre ++ [c]), post.
      rewrite <- app_assoc. reflexivity. }
    rewrite H1, H2, H3, H4, H5, H6.
    destruct (find e q) eqn:Hf; [|reflexivity].
    exfalso. apply Hn. eexists. apply find_Some in Hf. apply Hf.
  - intros q item Hb. split.
    + rewrite blank_lower by exact Hb. apply blank_split. exact Hb.
    + eexists. apply score_item_ok.
Qed.

(** C2, as the code has it. For a non-empty query and an entry whose first
    matching rule is the plain-substring rule, the tier is 500 minus the
    index of the first occurrence: it is at most 500, so always below the
    600 of the rule above, and it lies in (400, 600) exactly when the first
    occurrence starts before index 100. *)
Theorem substring_tier_range (query item : str) :
  query <> [] ->
  first_match (lower query) (lower item) SubstringAnywhere ->
  exists (pos : nat) (t : Z),
    FirstOccurrence (lower query) (lower item) pos /\
    score_item partial_ratio (lower query) item = Ok (inject_Z t, len item) /\
    t = (500 - Z.of_nat pos)%Z /\
    (t <= 500)%Z /\ (inject_Z t < 600)%Q /\
    ((400 < inject_Z t)%Q <-> (pos < 100)%nat).
Proof.
  intros Hq Hfm.
  destruct (score_of_first_match_raw partial_ratio
              (lower query) item (lower_nonempty _ Hq)) as [r [Hfm' Has]].
  assert (r = SubstringAnywhere) by (eapply first_match_unique; eassumption).
  subst r. destruct Has as [pos [Hpos Hsc]].
  exists pos, (500 - Z.of_nat pos)%Z. split; [exact Hpos|].
  split; [rewrite score_item_ok, Hsc; reflexivity|].
  split; [reflexivity|]. split; [lia|]. split.
  - change 600%Q with (inject_Z 600). rewrite <- Zlt_Qlt. lia.
  - change 400%Q with (inject_Z 400). rewrite <- Zlt_Qlt. lia.
Qed.

Hypothesis partial_ratio_range :
  forall a b, (0 <= partial_ratio a b <= 100)%Q.

(** C1. For a non-empty query, exactly one rule of the precedence list is
    the first to match the lower-cased query and entry, and the score of the
    entry is what that rule assigns: (1000, 0) for an exact match, then
    900, 850, 800, 700 and 600 with the entry length as tiebreak, 500 minus
    the index of the first occurrence for a plain substring, and otherwise
    the fuzzy score, which lies between 0 and 100. The query "ls" puts the
    entry "ls" first among "ls -la", "git ls-files", "ls", "echo ls". *)
Theorem score_item_precedence :
  (forall query item,
      query <> [] ->
      exists r,
        first_match (lower query) (lower item) r /\
        (forall r', first_match (lower query) (lower item) r' -> r' = r) /\
        exists sc,
          score_item partial_ratio (lower query) item = Ok sc /\
          assigns (partial_ratio (lower query) (lower item)) r
            (lower query) (lower item) (len item) sc) /\
  (exists rest,
      sort_by_similarity partial_ratio (Some (lit "ls"))
        [lit "ls -la"; lit "git ls-files"; lit "ls"; lit "echo ls"]
      = Ok (lit "ls" :: rest)).
Proof.
  split.
  - intros query item Hq.
    destruct (score_of_first_match partial_ratio partial_ratio_range
                (lower query) item (lower_nonempty _ Hq)) as [r [Hfm Has]].
    exists r. split; [exact Hfm|]. split.
    + intros r' Hr'. eapply first_match_unique; eassumption.
    + eexists. split; [apply score_item_ok | exact Has].
  - eexists. vm_compute. reflexivity.
Qed.

End Ranking.

(** * The order of the output *)

Lemma StronglySorted_map_on {A B} (R : A -> A -> Prop) (R' : B -> B -> Prop)
  (P : A -> Prop) (g : A -> B) (l : list A) :
  (forall x y, P x -> P y -> R x y -> R' (g x) (g y)) ->
  Forall P l -> StronglySorted R l -> StronglySorted R' (map g l).
Proof.
  intros Himp HP Hs. induction Hs as [|x l Hs IH Hx]; simpl; [constructor|].
  apply Forall_cons in HP as [Hpx HP].
  constructor; [apply IH; exact HP|].
  apply Forall_forall. intros y Hy.
  apply list_elem_of_fmap in Hy as [z [-> Hz]].
  apply Himp; [exact Hpx | | ].
  - rewrite Forall_forall in HP. apply HP. exact Hz.
  - rewrite Forall_forall in Hx. apply Hx. exact Hz.
Qed.

Lemma ranks_before_asym (score : str -> Q * Z) (x y : nat * str) :
  ranks_before score x y -> ranks_before score y x -> False.
Proof.
  unfold ranks_before.
  destruct (score (snd x)) as [tx bx], (score (snd y)) as [ty by_].
  intros [H1 | [[E1 L1] | [E1 [L1 I1]]]] [H2 | [[E2 L2] | [E2 [L2 I2]]]];
    try lra; try lia.
Qed.

(** A stable sort on the key [(-tier, tiebreak)] orders scored entries by
    descending tier, ascending tiebreak and ascending input position. *)
Lemma stable_before_ranks (score : str -> Q * Z) (x y : nat * (str * (Q * Z))) :
  snd (snd x) = score (fst (snd x)) ->
  snd (snd y) = score (fst (snd y)) ->
  stable_before sort_key tuple_lt x y ->
  ranks_before score (fst x, fst (snd x)) (fst y, fst (snd y)).
Proof.
  destruct x as [i [a sa]], y as [j [b sb]]. simpl. intros Ha Hb.
  unfold stable_before, ranks_before, sort_key. simpl. rewrite <- Ha, <- Hb.
  destruct sa as [ta ba], sb as [tb bb]. simpl.
  rewrite tuple_lt_false, tuple_lt_spec. simpl.
  intros [[Hlt | [Heq Hle]] [[Hlt' | [Heq' Hlt']] | Hij]].
  - left. lra.
  - left. lra.
  - left. lra.
  - left. lra.
  - right. left. split; [lra | exact Hlt'].
  - destruct (Z.eq_dec ba bb) as [-> | Hne].
    + right. right. split; [lra | auto].
    + right. left. split; [lra | lia].
Qed.

Section Order.
Variable partial_ratio : str -> str -> Q.

(** C3. For a non-empty query the output lists the input entries sorted by
    descending tier, then ascending tiebreak, then ascending position in the
    input: entries with equal tier and tiebreak keep their input order. There
    is one such arrangement only, so the output is determined by the input.
    The query "ls" sorts "ls -la --color=auto", "ls -la", "ls -l", "ls" to
    "ls", "ls -l", "ls -la", "ls -la --color=auto". *)
Theorem rank_stable_order :
  (forall query items,
      query <> [] ->
      exists ranked : list (nat * str),
        sort_by_similarity partial_ratio (Some query) items = Ok (map snd ranked) /\
        Permutation ranked (indexed items) /\
        StronglySorted (ranks_before (score_of partial_ratio (lower query))) ranked /\
        (forall ranked',
            Permutation ranked' (indexed items) ->
            StronglySorted (ranks_before (score_of partial_ratio (lower query))) ranked' ->
            ranked' = ranked)) /\
  sort_by_similarity partial_ratio (Some (lit "ls"))
    [lit "ls -la --color=auto"; lit "ls -la"; lit "ls -l"; lit "ls"]
  = Ok [lit "ls"; lit "ls -l"; lit "ls -la"; lit "ls -la --color=auto"].
Proof.
  split; [|vm_compute; reflexivity].
  intros query items Hq.
  set (score := score_of partial_ratio (lower query)).
  set (scored := map (fun item => (item, score item)) items).
  set (sorted := list_sort (fun y : nat * (str * (Q * Z)) => sort_key (snd y))
                   tuple_lt (indexed scored)).
  set (g := fun x : nat * (str * (Q * Z)) => (fst x, fst (snd x))).
  assert (Hperm : Permutation (map g sorted) (indexed items)).
  { unfold sorted. rewrite list_sort_perm. unfold scored.
    rewrite indexed_map, map_map. unfold g. simpl.
    rewrite <- (map_id (indexed items)) at 2.
    apply Permutation_refl'. apply map_ext. intros [i a]. reflexivity. }
  assert (Hsorted : StronglySorted (ranks_before score) (map g sorted)).
  { apply (StronglySorted_map_on (stable_before sort_key tuple_lt) _
             (fun x => snd (snd x) = score (fst (snd x)))).
    - intros x y Hx Hy Hxy. apply stable_before_ranks; assumption.
    - unfold sorted. eapply Permutation_Forall; [symmetry; apply list_sort_perm|].
      unfold scored. rewrite indexed_map. apply Forall_forall.
      intros x Hx. apply list_elem_of_fmap in Hx as [z [-> Hz]]. reflexivity.
    - unfold sorted. apply list_sort_stable.
      + apply tuple_lt_asym.
      + apply tuple_ge_trans.
      + apply indexed_sorted. }
  exists (map g sorted). split; [|split; [exact Hperm | split; [exact Hsorted|]]].
  - rewrite sort_by_similarity_eval by exact Hq. f_equal.
    fold score. fold scored.
    rewrite <- (indexed_snd scored) at 1.
    rewrite <- (list_sort_map sort_key tuple_lt snd). fold sorted.
    unfold g. rewrite !map_map. reflexivity.
  - intros ranked' Hperm' Hsorted'.
    apply (StronglySorted_unique_strong (ranks_before score)); try assumption.
    + intros x y _ _ Hxy Hyx. exfalso. eapply ranks_before_asym; eassumption.
    + rewrite Hperm', Hperm. reflexivity.
Qed.




Hypothesis partial_ratio_range :
  forall a b, (0 <= partial_ratio a b <= 100)%Q.


End Order.

(** * The normaliser *)

(** ** Reading never raises *)

Lemma for_each_ok {A S} (body : S -> A -> result S) (l : list A) (s : S) :
  (forall s a, exists s', body s a = Ok s') ->
  exists s', for_each body s l = Ok s'.
Proof.
  intros Hbody. revert s. induction l as [|a l IH]; intros s; simpl; [eauto|].
  destruct (Hbody s a) as [s' ->]. simpl. apply IH.
Qed.

(** A line that starts with the marker has a colon, so the second part of
    its split exists. *)
Lemma split_once_marker (line : str) :
  startswith line (lit "- cmd:") = true ->
  exists rest, getitem (split_once COLON line []) 1 = Ok rest.
Proof.
  intros Hs. apply startswith_spec in Hs as [r ->].
  exists r. reflexivity.
Qed.

Lemma fish_line_ok (cmds : list str) (line : str) :
  exists cmds', fish_line cmds line = Ok cmds'.
Proof.
  unfold fish_line. cbv zeta.
  destruct (startswith (strip line) (lit "- cmd:")) eqn:Hs; [|eauto].
  destruct (split_once_marker _ Hs) as [rest ->]. simpl.
  destruct (truthy (strip rest)); eauto.
Qed.

Lemma plain_line_ok (cmds : list str) (line : str) :
  exists cmds', plain_line cmds line = Ok cmds'.
Proof.
  unfold plain_line. cbv zeta.
  destruct (negb (truthy (rstrip_char LF line))); eauto.
Qed.

Lemma read_path_ok (fs : str -> file) (cmds : list str) (p : str) :
  exists cmds', read_path fs cmds p = Ok cmds'.
Proof.
  unfold read_path. destruct (fs p) as [| |text]; [eauto | eauto |].
  destruct (contains p (lit "fish_history")).
  - apply for_each_ok. apply fish_line_ok.
  - apply for_each_ok. apply plain_line_ok.
Qed.

Lemma raw_entries_ok (fs : str -> file) (paths : list str) :
  exists raw, for_each (read_path fs) [] paths = Ok raw.
Proof. apply for_each_ok. apply read_path_ok. Qed.

(** ** The window *)

Lemma window_small (max_lines : Z) (cmds : list str) :
  (len cmds <= max_lines)%Z -> window max_lines cmds = cmds.
Proof.
  intros Hle. unfold window.
  destruct (len cmds >? max_lines)%Z eqn:Hgt; [|reflexivity].
  apply Z.gtb_lt in Hgt. lia.
Qed.

(** With a positive bound, a longer list is cut to its last [max_lines]
    elements. *)
Lemma window_tail (max_lines : Z) (cmds : list str) :
  (0 < max_lines)%Z -> (max_lines < len cmds)%Z ->
  window max_lines cmds = skipn (length cmds - Z.to_nat max_lines) cmds /\
  len (window max_lines cmds) = max_lines.
Proof.
  intros Hpos Hlt. unfold window, slice_from.
  assert (Hgt : (len cmds >? max_lines)%Z = true) by (apply Z.gtb_lt; lia).
  rewrite Hgt.
  assert (Hneg : (- max_lines <? 0)%Z = true) by (apply Z.ltb_lt; lia).
  rewrite Hneg.
  assert (Hstart : Z.to_nat (Z.max (len cmds + - max_lines) 0)
                   = (length cmds - Z.to_nat max_lines)%nat).
  { unfold len in *. lia. }
  rewrite Hstart. split; [reflexivity|].
  unfold len in *. rewrite length_skipn. lia.
Qed.

Lemma window_length (max_lines : Z) (cmds : list str) :
  (0 < max_lines)%Z -> (len (window max_lines cmds) <= max_lines)%Z.
Proof.
  intros Hpos. destruct (Z_lt_le_dec max_lines (len cmds)) as [Hlt | Hle].
  - destruct (window_tail max_lines cmds Hpos Hlt) as [_ ->]. lia.
  - rewrite window_small by exact Hle. exact Hle.
Qed.

(** A bound of two on three lines lets the last two through. *)
Example window_two :
  window 2 [lit "a"; lit "b"; lit "c"] = [lit "b"; lit "c"].
Proof. reflexivity. Qed.

(** A bound of zero cuts nothing: [cmds[-0:]] is the whole list. *)
Lemma window_zero (cmds : list str) : window 0 cmds = cmds.
Proof.
  unfold window, slice_from.
  destruct (len cmds >? 0)%Z; [|reflexivity].
  simpl. rewrite Z.min_l by (unfold len; lia). reflexivity.
Qed.

(** ** Deduplication *)

Lemma dedupe_loop_spec (l : list str) (seen : gset str) (uniq : list str) :
  dedupe_loop l seen uniq
  = uniq ++ filter (fun y => y ∉ seen) (first_occurrences l).
Proof.
  revert seen uniq. induction l as [|cmd l IH]; intros seen uniq; simpl.
  - rewrite app_nil_r. reflexivity.
  - destruct (bool_decide (cmd ∈ seen)) eqn:Hin.
    + apply bool_decide_eq_true in Hin. rewrite IH.
      rewrite filter_cons_False by (intros Hn; exact (Hn Hin)).
      rewrite list_filter_filter_l; [reflexivity|].
      intros x Hx ->. exact (Hx Hin).
    + apply bool_decide_eq_false in Hin. rewrite IH.
      rewrite filter_cons_True by exact Hin.
      rewrite <- app_assoc. simpl. f_equal. f_equal.
      rewrite list_filter_filter. apply list_filter_iff.
      intros x. rewrite not_elem_of_union, not_elem_of_singleton. tauto.
Qed.

Lemma dedupe_first_occurrences (cmds : list str) :
  dedupe cmds = first_occurrences (rev cmds).
Proof.
  unfold dedupe. rewrite dedupe_loop_spec. simpl.
  induction (first_occurrences (rev cmds)) as [|x l IH]; [reflexivity|].
  rewrite filter_cons_True by apply not_elem_of_empty. rewrite IH. reflexivity.
Qed.

Lemma first_occurrences_elem (l : list str) (x : str) :
  x ∈ first_occurrences l <-> x ∈ l.
Proof.
  induction l as [|y l IH]; simpl; [reflexivity|].
  rewrite !elem_of_cons, list_elem_of_filter, IH.
  destruct (decide (x = y)); tauto.
Qed.

Lemma first_occurrences_NoDup (l : list str) : NoDup (first_occurrences l).
Proof.
  induction l as [|y l IH]; simpl; [constructor|].
  constructor.
  - rewrite list_elem_of_filter. intros [Hne _]. congruence.
  - apply NoDup_filter. exact IH.
Qed.

Lemma first_occurrences_sublist (l : list str) : first_occurrences l `sublist_of` l.
Proof.
  induction l as [|y l IH]; simpl; [constructor|].
  apply sublist_skip. etransitivity; [apply sublist_filter | exact IH].
Qed.

(** C4. Reading never fails, and the list returned is the windowed raw
    sequence scanned from its end with the first occurrence of each text
    kept: it has no duplicates, holds exactly the texts of the window, and
    lists them newest first. The lines "a", "b", "a", "c" of one plain
    history file give "c", "a", "b" under the default window. *)
Theorem read_history_dedup_recency :
  (forall fs paths max_lines,
      exists raw out,
        for_each (read_path fs) [] paths = Ok raw /\
        read_history fs paths max_lines = Ok out /\
        out = first_occurrences (rev (window max_lines raw)) /\
        NoDup out /\
        (forall x, x ∈ out <-> x ∈ window max_lines raw) /\
        out `sublist_of` rev (window max_lines raw)) /\
  read_history
    (fun _ => Text (lit "a" ++ [LF] ++ lit "b" ++ [LF] ++ lit "a" ++ [LF] ++ lit "c" ++ [LF]))
    [lit ".bash_history"] default_max_lines
  = Ok [lit "c"; lit "a"; lit "b"].
Proof.
  split; [|vm_compute; reflexivity].
  intros fs paths max_lines.
  destruct (raw_entries_ok fs paths) as [raw Hraw].
  exists raw, (first_occurrences (rev (window max_lines raw))).
  split; [exact Hraw|]. split.
  { unfold read_history. rewrite Hraw. simpl.
    rewrite dedupe_first_occurrences. reflexivity. }
  split; [reflexivity|]. split; [apply first_occurrences_NoDup|]. split.
  - intros x. rewrite first_occurrences_elem, !list_elem_of_In, <- in_rev. reflexivity.
  - apply first_occurrences_sublist.
Qed.

(** C5, at the input where the code departs from it. With a bound of zero
    every non-empty raw sequence exceeds the bound, and the window keeps all
    of it instead of its last zero elements: three lines read with
    [max_lines = 0] all come back. *)
Theorem window_zero_keeps_everything :
  (forall cmds, window 0 cmds = cmds) /\
  window 0 [lit "a"; lit "b"; lit "c"] = [lit "a"; lit "b"; lit "c"] /\
  read_history
    (fun _ => Text (lit "a" ++ [LF] ++ lit "b" ++ [LF] ++ lit "c" ++ [LF]))
    [lit ".bash_history"] 0
  = Ok [lit "c"; lit "b"; lit "a"].
Proof.
  split; [exact window_zero|]. split; vm_compute; reflexivity.
Qed.

(** C10. For a positive bound the list returned has at most that many
    entries: the window leaves at most [max_lines] raw entries and
    deduplication adds none. *)
Theorem read_history_length_bound (fs : str -> file) (paths : list str)
  (max_lines : Z) :
  (0 < max_lines)%Z ->
  exists out,
    read_history fs paths max_lines = Ok out /\ (len out <= max_lines)%Z.
Proof.
  intros Hpos. destruct (raw_entries_ok fs paths) as [raw Hraw].
  exists (dedupe (window max_lines raw)). split.
  - unfold read_history. rewrite Hraw. reflexivity.
  - pose proof (window_length max_lines raw Hpos) as Hw.
    rewrite dedupe_first_occurrences.
    pose proof (sublist_length _ _ (first_occurrences_sublist (rev (window max_lines raw)))) as Hl.
    rewrite length_rev in Hl. unfold len in *. lia.
Qed.

(** * The theorems at concrete inputs *)

Lemma constant_score_in_range (a b : str) :
  (0 <= (fun _ _ : str => 0%Q) a b <= 100)%Q.
Proof. simpl. lra. Qed.

(** "als" has "ls" inside a word only: the plain-substring rule is its first
    match. *)
Lemma als_first_match :
  first_match (lower (lit "ls")) (lower (lit "als")) SubstringAnywhere.
Proof.
  destruct (score_of_first_match_raw (fun _ _ => 0%Q) (lower (lit "ls")) (lit "als"))
    as [r [Hfm Has]]; [discriminate|].
  destruct r; try (vm_compute in Has; discriminate); exact Hfm.
Qed.

(** An entry of 101 characters with its only "x" at index 100. *)
Lemma late_occurrence_first_match :
  first_match (lower (lit "x")) (lower (repeat "a"%char 100 ++ lit "x"))
    SubstringAnywhere.
Proof.
  destruct (score_of_first_match_raw (fun _ _ => 0%Q) (lower (lit "x"))
              (repeat "a"%char 100 ++ lit "x"))
    as [r [Hfm Has]]; [discriminate|].
  destruct r; try (vm_compute in Has; discriminate); exact Hfm.
Qed.

Lemma score_item_precedence_witness :
  exists r sc,
    first_match (lower (lit "ls")) (lower (lit "git ls-files")) r /\
    score_item (fun _ _ => 0%Q) (lower (lit "ls")) (lit "git ls-files") = Ok sc /\
    assigns 0%Q r (lower (lit "ls")) (lower (lit "git ls-files"))
      (len (lit "git ls-files")) sc.
Proof.
  destruct (score_item_precedence (fun _ _ => 0%Q) constant_score_in_range)
    as [Hrule _].
  destruct (Hrule (lit "ls") (lit "git ls-files")) as [r [Hfm [_ [sc [Hsc Has]]]]];
    [discriminate|].
  exists r, sc. split; [exact Hfm|]. split; [exact Hsc | exact Has].
Defined.

(** The tier of the plain-substring rule is not confined to (400, 600): a
    first occurrence at index 100 gives tier 400. *)
Lemma substring_tier_not_above_400 :
  ~ (forall (partial_ratio : str -> str -> Q) (query item : str),
        query <> [] ->
        first_match (lower query) (lower item) SubstringAnywhere ->
        exists t b,
          score_item partial_ratio (lower query) item = Ok (t, b) /\
          (400 < t)%Q /\ (t < 600)%Q).
Proof.
  intros Hclaim.
  destruct (Hclaim (fun _ _ => 0%Q) (lit "x") (repeat "a"%char 100 ++ lit "x"))
    as [t [b [Hsc [Hlo _]]]]; [discriminate | exact late_occurrence_first_match |].
  vm_compute in Hsc. injection Hsc as <- <-.
  vm_compute in Hlo. discriminate.
Qed.

Lemma substring_tier_range_witness :
  exists (pos : nat) (t : Z),
    score_item (fun _ _ => 0%Q) (lower (lit "ls")) (lit "als")
    = Ok (inject_Z t, len (lit "als")) /\
    t = (500 - Z.of_nat pos)%Z /\ (inject_Z t < 600)%Q.
Proof.
  destruct (substring_tier_range (fun _ _ => 0%Q) (lit "ls") (lit "als"))
    as [pos [t [_ [Hsc [Ht [_ [Hhi _]]]]]]];
    [discriminate | exact als_first_match |].
  exists pos, t. split; [exact Hsc|]. split; [exact Ht | exact Hhi].
Defined.

Lemma rank_stable_order_witness :
  exists ranked : list (nat * str),
    sort_by_similarity (fun _ _ => 0%Q) (Some (lit "ls")) [lit "ls -l"; lit "ls -a"]
    = Ok (map snd ranked) /\
    Permutation ranked (indexed [lit "ls -l"; lit "ls -a"]).
Proof.
  destruct (rank_stable_order (fun _ _ => 0%Q)) as [Horder _].
  destruct (Horder (lit "ls") [lit "ls -l"; lit "ls -a"]) as [ranked [Hout [Hperm _]]];
    [discriminate|].
  exists ranked. split; [exact Hout | exact Hperm].
Defined.

Lemma rank_never_raises_witness :
  score_item (fun _ _ => 0%Q) (lit "zz") (lit "ls")
  = Ok (0%Q, len (lit "ls")).
Proof.
  destruct (rank_never_raises (fun _ _ => 0%Q)) as [_ [_ [_ [Hfuzzy _]]]].
  apply (Hfuzzy (lit "zz") (lit "ls")).
  apply contains_false. reflexivity.
Defined.


Lemma read_history_length_bound_witness :
  exists out,
    read_history
      (fun _ => Text (lit "a" ++ [LF] ++ lit "b" ++ [LF] ++ lit "c" ++ [LF]))
      [lit ".bash_history"] 2
    = Ok out /\ (len out <= 2)%Z.
Proof.
  apply (read_history_length_bound
           (fun _ => Text (lit "a" ++ [LF] ++ lit "b" ++ [LF] ++ lit "c" ++ [LF]))
           [lit ".bash_history"] 2).
  lia.
Defined.

(** * More on the ranker *)




Lemma indexed_elem {A} (l : list A) (a : A) :
  a ∈ l -> exists i, (i, a) ∈ indexed l.
Proof.
  intros Ha. rewrite <- (indexed_snd l) in Ha.
  apply list_elem_of_fmap in Ha as [[i a'] [-> Hin]]. exists i. exact Hin.
Qed.

Section RankerMore.
Variable partial_ratio : str -> str -> Q.

(** The output, with the input position of each entry, in the order the
    stable sort leaves it. *)
Lemma sort_by_similarity_ranked (query : str) (items : list str) :
  query <> [] ->
  exists ranked : list (nat * str),
    sort_by_similarity partial_ratio (Some query) items = Ok (map snd ranked) /\
    Permutation ranked (indexed items) /\
    StronglySorted (ranks_before (score_of partial_ratio (lower query))) ranked.
Proof.
  intros Hq.
  set (score := score_of partial_ratio (lower query)).
  set (scored := map (fun item => (item, score item)) items).
  set (sorted := list_sort (fun y : nat * (str * (Q * Z)) => sort_key (snd y))
                   tuple_lt (indexed scored)).
  set (g := fun x : nat * (str * (Q * Z)) => (fst x, fst (snd x))).
  exists (map g sorted). split; [|split].
  - rewrite sort_by_similarity_eval by exact Hq. f_equal.
    fold score. fold scored.
    rewrite <- (indexed_snd scored) at 1.
    rewrite <- (list_sort_map sort_key tuple_lt snd). fold sorted.
    unfold g. rewrite !map_map. reflexivity.
  - unfold sorted. rewrite list_sort_perm. unfold scored.
    rewrite indexed_map, map_map. unfold g. simpl.
    rewrite <- (map_id (indexed items)) at 2.
    apply Permutation_refl'. apply map_ext. intros [i a]. reflexivity.
  - apply (StronglySorted_map_on (stable_before sort_key tuple_lt) _
             (fun x => snd (snd x) = score (fst (snd x)))).
    + intros x y Hx Hy Hxy. apply stable_before_ranks; assumption.
    + unfold sorted. eapply Permutation_Forall; [symmetry; apply list_sort_perm|].
      unfold scored. rewrite indexed_map. apply Forall_forall.
      intros x Hx. apply list_elem_of_fmap in Hx as [z [-> Hz]]. reflexivity.
    + unfold sorted. apply list_sort_stable.
      * apply tuple_lt_asym.
      * apply tuple_ge_trans.
      * apply indexed_sorted.
Qed.


Hypothesis partial_ratio_range :
  forall a b, (0 <= partial_ratio a b <= 100)%Q.

(** The tier of an entry, by its first matching rule. *)
Lemma tier_of_rule (q item : str) (r : rule) :
  q <> [] ->
  first_match q (lower item) r ->
  let t := fst (score_of partial_ratio q item) in
  match r with
  | ExactMatch => t = 1000%Q
  | PrefixSeparator => t = 900%Q
  | FirstTokenEquals => t = 850%Q
  | FirstTokenStartsWith => t = 800%Q
  | TokenEquals => t = 700%Q
  | AfterBoundary => t = 600%Q
  | SubstringAnywhere =>
      exists pos, FirstOccurrence q (lower item) pos /\
                  t = inject_Z (500 - Z.of_nat pos)
  | NoRelation => (0 <= t <= 100)%Q
  end.
Proof.
  intros Hq Hfm.
  destruct (score_of_first_match partial_ratio partial_ratio_range q item Hq)
    as [r' [Hfm' Has]].
  assert (r' = r) by (eapply first_match_unique; eassumption). subst r'.
  destruct r; simpl in Has |- *; try (rewrite Has; reflexivity).
  - destruct Has as [pos [Hpos ->]]. exists pos. split; [exact Hpos | reflexivity].
  - destruct Has as [-> Hr]. exact Hr.
Qed.

Lemma tier_at_most_500 (pos : nat) : (inject_Z (500 - Z.of_nat pos) <= 500)%Q.
Proof. change 500%Q with (inject_Z 500). rewrite <- Zle_Qle. lia. Qed.


(** X2. If some entry equals the query up to letter case, the first entry of
    the output does. *)
Theorem exact_match_ranks_first (query : str) (items : list str) (e : str) :
  query <> [] ->
  e ∈ items -> lower e = lower query ->
  exists x rest,
    sort_by_similarity partial_ratio (Some query) items = Ok (x :: rest) /\
    lower x = lower query.
Proof.
  intros Hq He Hex.
  destruct (sort_by_similarity_ranked query items Hq) as [ranked [Hout [Hperm Hs]]].
  pose proof (lower_nonempty _ Hq) as Hql.
  assert (Te : fst (score_of partial_ratio (lower query) e) = 1000%Q).
  { apply (tier_of_rule (lower query) e ExactMatch Hql).
    split; [exact Hex|]. intros r' Hr'. destruct r'; simpl in Hr'; lia. }
  destruct (indexed_elem _ _ He) as [j Hj]. rewrite <- Hperm in Hj.
  destruct ranked as [|[i x] ranked]; [inversion Hj|].
  exists x, (map snd ranked). split; [exact Hout|].
  apply elem_of_cons in Hj as [[= <- <-] | Hj]; [exact Hex|].
  apply StronglySorted_cons in Hs as [Hall _].
  rewrite Forall_forall in Hall. specialize (Hall _ Hj).
  destruct (score_of_first_match partial_ratio partial_ratio_range
              (lower query) x Hql) as [r [Hfm _]].
  pose proof (tier_of_rule _ _ _ Hql Hfm) as Tx. cbv zeta in Tx.
  unfold ranks_before in Hall. simpl in Hall.
  destruct (score_of partial_ratio (lower query) x) as [tx bx],
           (score_of partial_ratio (lower query) e) as [te be].
  simpl in Te, Tx. subst te.
  assert (Hx : lower x = lower query \/ (tx <= 900)%Q).
  { destruct r; [left; exact (proj1 Hfm) | right ..];
      lazymatch type of Tx with
      | _ = _ => rewrite Tx; discriminate
      | ex _ => destruct Tx as [pos [_ ->]]; pose proof (tier_at_most_500 pos); lra
      | _ => lra
      end. }
  destruct Hx as [Hx | Hx]; [exact Hx|].
  exfalso. destruct Hall as [H | [[H _] | [H _]]]; lra.
Qed.



End RankerMore.

(** ** Sorting again, and sorting a selection *)

Section SortAgain.
Context {A K : Type} (key : A -> K) (lt : K -> K -> bool).

Lemma insert_sorted_head (x : A) (l : list A) :
  Forall (fun z => lt (key z) (key x) = false) l ->
  insert_sorted key lt x l = x :: l.
Proof.
  intros Hall. destruct l as [|y l]; simpl; [reflexivity|].
  apply Forall_cons in Hall as [Hy _]. rewrite Hy. reflexivity.
Qed.

(** A list already in order is left as it is. *)
Lemma list_sort_fixed (l : list A) :
  StronglySorted (fun x y => lt (key y) (key x) = false) l ->
  list_sort key lt l = l.
Proof.
  induction 1 as [|x l Hs IH Hx]; simpl; [reflexivity|].
  rewrite IH. apply insert_sorted_head. exact Hx.
Qed.

Hypothesis lt_asym : forall a b, lt a b = true -> lt b a = false.
Hypothesis ge_trans : forall a b c, lt b a = false -> lt c b = false -> lt c a = false.

Lemma insert_sorted_ordered (x : A) (l : list A) :
  StronglySorted (fun x y => lt (key y) (key x) = false) l ->
  StronglySorted (fun x y => lt (key y) (key x) = false) (insert_sorted key lt x l).
Proof.
  induction 1 as [|y l Hs IH Hy]; simpl; [repeat constructor|].
  destruct (lt (key y) (key x)) eqn:Hlt.
  - constructor; [exact IH|].
    eapply Permutation_Forall; [symmetry; apply insert_sorted_perm|].
    constructor; [apply lt_asym; exact Hlt | exact Hy].
  - constructor; [constructor; assumption|].
    constructor; [exact Hlt|].
    eapply Forall_impl; [exact Hy|]. simpl. intros z Hz.
    eapply ge_trans; eassumption.
Qed.

Lemma list_sort_ordered (l : list A) :
  StronglySorted (fun x y => lt (key y) (key x) = false) (list_sort key lt l).
Proof.
  induction l as [|x l IH]; simpl; [constructor|].
  apply insert_sorted_ordered. exact IH.
Qed.

Lemma list_sort_idempotent (l : list A) :
  list_sort key lt (list_sort key lt l) = list_sort key lt l.
Proof. apply list_sort_fixed, list_sort_ordered. Qed.

Context (P : A -> Prop) `{!forall x, Decision (P x)}.

Lemma insert_sorted_filter (x : A) (l : list A) :
  StronglySorted (fun x y => lt (key y) (key x) = false) l ->
  filter P (insert_sorted key lt x l) =
  if decide (P x) then insert_sorted key lt x (filter P l) else filter P l.
Proof.
  induction 1 as [|y l Hs IH Hy]; simpl.
  - rewrite filter_cons, filter_nil. destruct (decide (P x)); reflexivity.
  - destruct (lt (key y) (key x)) eqn:Hlt.
    + rewrite !(filter_cons _ y), IH.
      destruct (decide (P y)), (decide (P x)); simpl; try rewrite Hlt; reflexivity.
    + rewrite (filter_cons _ x). destruct (decide (P x)); [|reflexivity].
      symmetry. apply insert_sorted_head.
      apply Forall_forall. intros z Hz.
      apply list_elem_of_filter in Hz as [_ Hz].
      apply elem_of_cons in Hz as [-> | Hz]; [exact Hlt|].
      rewrite Forall_forall in Hy. eapply ge_trans; [exact Hlt | apply Hy; exact Hz].
Qed.

(** Sorting a selection of the input gives the selection of the sorted
    input. *)
Lemma list_sort_filter (l : list A) :
  list_sort key lt (filter P l) = filter P (list_sort key lt l).
Proof.
  induction l as [|x l IH]; simpl; [reflexivity|].
  rewrite insert_sorted_filter by apply list_sort_ordered.
  rewrite filter_cons. destruct (decide (P x)); simpl; rewrite IH; reflexivity.
Qed.

End SortAgain.

Section RankAgain.
Variable partial_ratio : str -> str -> Q.

Lemma scored_of_sorted (q : str) (items : list str) :
  let scored := map (fun item => (item, score_of partial_ratio q item)) items in
  map (fun item => (item, score_of partial_ratio q item))
    (map fst (list_sort sort_key tuple_lt scored))
  = list_sort sort_key tuple_lt scored.
Proof.
  intros scored.
  assert (Hall : Forall (fun x => snd x = score_of partial_ratio q (fst x))
                   (list_sort sort_key tuple_lt scored)).
  { eapply Permutation_Forall; [symmetry; apply list_sort_perm|].
    apply Forall_forall. intros x Hx.
    apply list_elem_of_fmap in Hx as [it [-> _]]. reflexivity. }
  induction Hall as [|[it sc] l Hx Hall IH]; simpl; [reflexivity|].
  simpl in Hx. rewrite <- Hx, IH. reflexivity.
Qed.

(** X4. Ranking is idempotent: ranking the output again with the same query
    leaves it as it is. *)
Theorem rank_idempotent (query : option str) (items : list str) :
  exists out,
    sort_by_similarity partial_ratio query items = Ok out /\
    sort_by_similarity partial_ratio query out = Ok out.
Proof.
  destruct query as [query|]; [|exists items; split; reflexivity].
  destruct (decide (query = [])) as [-> | Hq]; [exists items; split; reflexivity|].
  eexists. split; [apply sort_by_similarity_eval; exact Hq|].
  rewrite sort_by_similarity_eval by exact Hq.
  rewrite scored_of_sorted.
  rewrite (list_sort_idempotent sort_key tuple_lt tuple_lt_asym tuple_ge_trans).
  reflexivity.
Qed.

(** X5. Ranking commutes with selecting entries: ranking the entries that
    satisfy a condition gives the ranked list restricted to them, in the same
    order. *)
Theorem rank_filter (P : str -> Prop) `{!forall x, Decision (P x)}
  (query : option str) (items : list str) :
  exists out,
    sort_by_similarity partial_ratio query items = Ok out /\
    sort_by_similarity partial_ratio query (filter P items) = Ok (filter P out).
Proof.
  destruct query as [query|]; [|exists items; split; reflexivity].
  destruct (decide (query = [])) as [-> | Hq]; [exists items; split; reflexivity|].
  eexists. split; [apply sort_by_similarity_eval; exact Hq|].
  rewrite sort_by_similarity_eval by exact Hq. f_equal.
  set (f := fun item => (item, score_of partial_ratio (lower query) item)).
  assert (Hmap : forall l, map f (filter P l) = filter (fun x => P (fst x)) (map f l)).
  { induction l as [|x l IH]; [reflexivity|].
    simpl. rewrite !filter_cons. simpl.
    destruct (decide (P x)); simpl; rewrite IH; reflexivity. }
  assert (Hfst : forall l : list (str * (Q * Z)),
             map fst (filter (fun x => P (fst x)) l) = filter P (map fst l)).
  { induction l as [|x l IH]; [reflexivity|].
    simpl. rewrite !filter_cons.
    destruct (decide (P (fst x))); simpl; rewrite IH; reflexivity. }
  rewrite Hmap.
  rewrite (list_sort_filter sort_key tuple_lt tuple_lt_asym tuple_ge_trans).
  apply Hfst.
Qed.

End RankAgain.

(** * More on the normaliser *)

(** ** What one line and one file add *)

Lemma lstrip_by_suffix (p : ascii -> bool) (s : str) :
  exists pre, s = pre ++ lstrip_by p s /\ Forall (fun c => p c = true) pre.
Proof.
  induction s as [|c s [pre [IH Hpre]]]; simpl.
  - exists []. split; [reflexivity | constructor].
  - destruct (p c) eqn:Hc.
    + exists (c :: pre). simpl. split; [f_equal; exact IH | constructor; assumption].
    + exists []. split; [reflexivity | constructor].
Qed.

Lemma lstrip_by_Forall (P : ascii -> Prop) (p : ascii -> bool) (s : str) :
  Forall P s -> Forall P (lstrip_by p s).
Proof.
  intros Hs. destruct (lstrip_by_suffix p s) as [pre [Heq _]].
  rewrite Heq in Hs. apply Forall_app in Hs. apply Hs.
Qed.

Lemma rstrip_by_Forall (P : ascii -> Prop) (p : ascii -> bool) (s : str) :
  Forall P s -> Forall P (rstrip_by p s).
Proof.
  intros Hs. unfold rstrip_by. apply Forall_rev. apply lstrip_by_Forall.
  apply Forall_rev. exact Hs.
Qed.

Lemma strip_Forall (P : ascii -> Prop) (s : str) :
  Forall P s -> Forall P (strip s).
Proof.
  intros Hs. unfold strip. apply rstrip_by_Forall, lstrip_by_Forall. exact Hs.
Qed.

Lemma split_once_Forall (P : ascii -> Prop) (sep : ascii) (s cur : str) :
  Forall P s -> Forall P cur -> Forall (Forall P) (split_once sep s cur).
Proof.
  intros Hs. revert cur. induction Hs as [|c s Hc Hs IH]; intros cur Hcur; simpl.
  - repeat constructor. exact Hcur.
  - destruct (Ascii.eqb c sep).
    + repeat constructor; assumption.
    + apply IH. apply Forall_app. split; [exact Hcur | repeat constructor; exact Hc].
Qed.

Lemma linebreak_CR (c : ascii) : is_linebreak c = false -> Ascii.eqb c CR = false.
Proof.
  intros Hc. destruct (Ascii.eqb c CR) eqn:He; [|reflexivity].
  apply Ascii.eqb_eq in He. subst c. discriminate.
Qed.

Lemma splitlines_from_one_line (s cur : str) :
  one_line cur -> Forall one_line (splitlines_from s cur).
Proof.
  remember (length s) as n eqn:Hn. revert s cur Hn.
  induction n as [n IH] using lt_wf_ind. intros s cur Hn Hcur.
  destruct s as [|c s]; simpl.
  - destruct (truthy cur); repeat constructor. exact Hcur.
  - simpl in Hn. destruct (Ascii.eqb c CR) eqn:Hcr.
    + destruct s as [|d s].
      * repeat constructor. exact Hcur.
      * simpl in Hn. destruct (Ascii.eqb d LF).
        -- constructor; [exact Hcur|]. apply (IH (length s)); [lia | reflexivity | constructor].
        -- constructor; [exact Hcur|].
           apply (IH (length (d :: s))); [simpl; lia | reflexivity | constructor].
    + destruct (is_linebreak c) eqn:Hlb.
      * constructor; [exact Hcur|]. apply (IH (length s)); [lia | reflexivity | constructor].
      * apply (IH (length s)); [lia | reflexivity|].
        apply Forall_app. split; [exact Hcur | repeat constructor; exact Hlb].
Qed.

Lemma splitlines_one_line (s : str) : Forall one_line (splitlines s).
Proof. apply splitlines_from_one_line. constructor. Qed.

(** A line adds at most one entry, behind the entries read so far; an entry
    is never empty and spans one line. *)
Lemma fish_line_adds (line : str) :
  exists e,
    (forall cmds, fish_line cmds line = Ok (cmds ++ e)) /\
    (one_line line -> Forall (fun x => x <> [] /\ one_line x) e).
Proof.
  unfold fish_line. cbv zeta.
  destruct (startswith (strip line) (lit "- cmd:")) eqn:Hs.
  - pose proof Hs as Hs'. apply startswith_spec in Hs' as [rest Hrest].
    assert (Hget : getitem (split_once COLON (strip line) []) 1 = Ok rest).
    { rewrite Hrest. reflexivity. }
    rewrite Hget. cbn [bind].
    destruct (truthy (strip rest)) eqn:Ht.
    + exists [strip rest]. split; [reflexivity|].
      intros Hl. repeat constructor; [apply truthy_true; exact Ht|].
      apply strip_Forall.
      apply (strip_Forall _ line) in Hl. rewrite Hrest in Hl.
      apply Forall_app in Hl. apply Hl.
    + exists []. split; [intros; rewrite app_nil_r; reflexivity | constructor].
  - exists []. split; [intros; rewrite app_nil_r; reflexivity | constructor].
Qed.

Lemma plain_line_adds (line : str) :
  exists e,
    (forall cmds, plain_line cmds line = Ok (cmds ++ e)) /\
    (one_line line -> Forall (fun x => x <> [] /\ one_line x) e).
Proof.
  unfold plain_line. cbv zeta.
  destruct (truthy (rstrip_char LF line)) eqn:Ht; simpl.
  - exists [rstrip_char LF line]. split; [reflexivity|].
    intros Hl. repeat constructor; [apply truthy_true; exact Ht|].
    apply rstrip_by_Forall. exact Hl.
  - exists []. split; [intros; rewrite app_nil_r; reflexivity | constructor].
Qed.

Lemma for_each_adds {A B} (body : list B -> A -> result (list B))
  (Q : A -> Prop) (P : B -> Prop) (l : list A) :
  (forall a, exists e,
        (forall s, body s a = Ok (s ++ e)) /\ (Q a -> Forall P e)) ->
  exists r,
    (forall s, for_each body s l = Ok (s ++ r)) /\ (Forall Q l -> Forall P r).
Proof.
  intros Hbody. induction l as [|a l [r [IH HP]]].
  - exists []. split; [intros; simpl; rewrite app_nil_r; reflexivity | constructor].
  - destruct (Hbody a) as [e [He HPe]]. exists (e ++ r). split.
    + intros s. simpl. rewrite He. cbn [bind]. rewrite IH, app_assoc. reflexivity.
    + intros Hall. apply Forall_cons in Hall as [Ha Hall].
      apply Forall_app. auto.
Qed.

Lemma read_path_adds (fs : str -> file) (p : str) :
  exists r,
    (forall cmds, read_path fs cmds p = Ok (cmds ++ r)) /\
    Forall (fun x => x <> [] /\ one_line x) r.
Proof.
  unfold read_path. destruct (fs p) as [| |text].
  - exists []. split; [intros; rewrite app_nil_r; reflexivity | constructor].
  - exists []. split; [intros; rewrite app_nil_r; reflexivity | constructor].
  - destruct (contains p (lit "fish_history")).
    + destruct (for_each_adds fish_line one_line (fun x => x <> [] /\ one_line x)
                  (splitlines text) fish_line_adds) as [r [Hr HP]].
      exists r. split; [exact Hr | apply HP, splitlines_one_line].
    + destruct (for_each_adds plain_line one_line (fun x => x <> [] /\ one_line x)
                  (splitlines text) plain_line_adds) as [r [Hr HP]].
      exists r. split; [exact Hr | apply HP, splitlines_one_line].
Qed.

Lemma raw_entries_adds (fs : str -> file) (paths : list str) :
  exists r,
    (forall cmds, for_each (read_path fs) cmds paths = Ok (cmds ++ r)) /\
    Forall (fun x => x <> [] /\ one_line x) r.
Proof.
  destruct (for_each_adds (read_path fs) (fun _ => True)
              (fun x => x <> [] /\ one_line x) paths) as [r [Hr HP]].
  - intros p. destruct (read_path_adds fs p) as [e [He HPe]]. eauto.
  - exists r. split; [exact Hr|]. apply HP. apply Forall_forall. auto.
Qed.

Lemma window_subset (max_lines : Z) (cmds : list str) (x : str) :
  x ∈ window max_lines cmds -> x ∈ cmds.
Proof.
  unfold window, slice_from.
  destruct (len cmds >? max_lines)%Z; [|auto].
  intros Hx. match type of Hx with _ ∈ skipn ?n _ => rewrite <- (firstn_skipn n cmds) end.
  apply elem_of_app. right. exact Hx.
Qed.


(** X7. Sources are read one after the other: the raw entries of a list of
    paths are those of its first part followed by those of the rest, so the
    entries of later paths count as the more recent. *)
Theorem raw_entries_concat (fs : str -> file) (paths1 paths2 : list str) :
  exists r1 r2,
    for_each (read_path fs) [] paths1 = Ok r1 /\
    for_each (read_path fs) [] paths2 = Ok r2 /\
    for_each (read_path fs) [] (paths1 ++ paths2) = Ok (r1 ++ r2) /\
    forall max_lines,
      read_history fs (paths1 ++ paths2) max_lines
      = Ok (dedupe (window max_lines (r1 ++ r2))).
Proof.
  destruct (raw_entries_adds fs paths1) as [r1 [H1 _]].
  destruct (raw_entries_adds fs paths2) as [r2 [H2 _]].
  assert (Happ : for_each (read_path fs) [] (paths1 ++ paths2) = Ok (r1 ++ r2)).
  { assert (Hgen : forall l1 l2 s,
               for_each (read_path fs) s (l1 ++ l2)
               = (s' <- for_each (read_path fs) s l1 ;; for_each (read_path fs) s' l2)).
    { induction l1 as [|a l1 IH]; intros l2 s; simpl; [reflexivity|].
      destruct (read_path fs s a); simpl; [apply IH | reflexivity]. }
    rewrite Hgen, H1. cbn [bind]. rewrite H2. reflexivity. }
  exists r1, r2. split; [apply H1|]. split; [apply H2|]. split; [exact Happ|].
  intros max_lines. unfold read_history. rewrite Happ. reflexivity.
Qed.

Lemma history_wellformed (fs : str -> file) (paths : list str) (max_lines : Z) :
  exists out,
    read_history fs paths max_lines = Ok out /\
    Forall (fun x => x <> [] /\ one_line x) out.
Proof.
  destruct (raw_entries_adds fs paths) as [raw [Hraw Hok]].
  exists (dedupe (window max_lines raw)). split.
  - unfold read_history. rewrite Hraw. reflexivity.
  - rewrite Forall_forall in Hok |- *. intros x Hx. apply Hok.
    rewrite dedupe_first_occurrences in Hx.
    apply (proj1 (first_occurrences_elem _ _)) in Hx.
    apply list_elem_of_In, in_rev, list_elem_of_In in Hx.
    eapply window_subset. exact Hx.
Qed.


(** X9. A negative bound is no error and no empty window: every raw
    sequence "exceeds" it, and the slice drops the [-max_lines] oldest
    entries and keeps the rest. *)
Theorem window_negative (max_lines : Z) (cmds : list str) :
  (max_lines < 0)%Z ->
  window max_lines cmds = skipn (Z.to_nat (- max_lines)) cmds.
Proof.
  intros Hneg. unfold window, slice_from.
  assert (Hgt : (len cmds >? max_lines)%Z = true).
  { apply Z.gtb_lt. unfold len. lia. }
  rewrite Hgt.
  assert (Hk : (- max_lines <? 0)%Z = false) by (apply Z.ltb_ge; lia).
  rewrite Hk.
  destruct (Z_le_gt_dec (- max_lines) (len cmds)) as [Hle | Hgt'].
  - rewrite Z.min_l by exact Hle. reflexivity.
  - rewrite Z.min_r by lia. unfold len in *.
    rewrite Nat2Z.id, skipn_all. symmetry. apply skipn_all2. lia.
Qed.

(** X10. The most recent raw entry comes first: with a positive bound, if
    the raw sequence ends with [x], the result starts with [x]. *)
Theorem read_history_newest_first (fs : str -> file) (paths : list str)
  (max_lines : Z) (older : list str) (x : str) :
  (0 < max_lines)%Z ->
  for_each (read_path fs) [] paths = Ok (older ++ [x]) ->
  exists rest, read_history fs paths max_lines = Ok (x :: rest).
Proof.
  intros Hpos Hraw. unfold read_history. rewrite Hraw. cbn [bind].
  assert (Hw : exists w, window max_lines (older ++ [x]) = w ++ [x]).
  { destruct (Z_lt_le_dec max_lines (len (older ++ [x]))) as [Hlt | Hle].
    - destruct (window_tail _ _ Hpos Hlt) as [-> _].
      rewrite skipn_app. unfold len in Hlt. rewrite length_app in *. simpl in *.
      replace (length older + 1 - Z.to_nat max_lines - length older)%nat with 0%nat by lia.
      simpl. eauto.
    - rewrite window_small by exact Hle. eauto. }
  destruct Hw as [w ->]. rewrite dedupe_first_occurrences, rev_app_distr. simpl.
  eauto.
Qed.

(** ** Files read back *)

Lemma splitlines_from_run (x s cur : str) :
  one_line x -> splitlines_from (x ++ s) cur = splitlines_from s (cur ++ x).
Proof.
  intros Hx. revert cur. induction Hx as [|c x Hc Hx IH]; intros cur; simpl.
  - rewrite app_nil_r. reflexivity.
  - rewrite (linebreak_CR c Hc), Hc, IH, <- app_assoc. reflexivity.
Qed.

(** Lines joined by LF, with or without a final LF, split into the lines. *)
Lemma splitlines_join (lines : list str) (fin : str) :
  lines <> [] ->
  Forall (fun x => x <> [] /\ one_line x) lines ->
  fin = [] \/ fin = [LF] ->
  splitlines (join [LF] lines ++ fin) = lines.
Proof.
  intros Hne Hall Hfin. unfold splitlines. revert Hne.
  induction Hall as [|x lines [Hx Hone] Hall IH]; intros Hne;
    [exfalso; apply Hne; reflexivity|].
  destruct lines as [|y lines].
  - simpl. rewrite splitlines_from_run by exact Hone. simpl.
    destruct Hfin as [-> | ->]; simpl.
    + destruct x; [congruence | reflexivity].
    + reflexivity.
  - change (join [LF] (x :: y :: lines)) with (x ++ [LF] ++ join [LF] (y :: lines)).
    rewrite <- !app_assoc. rewrite splitlines_from_run by exact Hone.
    simpl. f_equal. apply IH. discriminate.
Qed.

Lemma lstrip_by_id (p : ascii -> bool) (s : str) :
  (forall c r, s = c :: r -> p c = false) -> lstrip_by p s = s.
Proof.
  intros Hs. destruct s as [|c s]; [reflexivity|].
  simpl. rewrite (Hs c s eq_refl). reflexivity.
Qed.

Lemma rstrip_by_id (p : ascii -> bool) (s : str) :
  (forall r c, s = r ++ [c] -> p c = false) -> rstrip_by p s = s.
Proof.
  intros Hs. unfold rstrip_by. rewrite lstrip_by_id; [apply rev_involutive|].
  intros c r Hr. apply (Hs (rev r) c).
  rewrite <- (rev_involutive s), Hr. reflexivity.
Qed.

Lemma strip_stripped (s : str) : stripped s -> strip s = s.
Proof.
  intros [Hhead Hlast]. unfold strip.
  rewrite (lstrip_by_id _ s Hhead). apply rstrip_by_id. exact Hlast.
Qed.

(** Stripping on the right keeps a first character that is not stripped. *)
Lemma rstrip_by_head (p : ascii -> bool) (c : ascii) (s : str) :
  p c = false -> exists r, rstrip_by p (c :: s) = c :: r.
Proof.
  intros Hc. unfold rstrip_by.
  destruct (lstrip_by_suffix p (rev (c :: s))) as [pre [Heq Hpre]].
  assert (Hs : c :: s = rev (lstrip_by p (rev (c :: s))) ++ rev pre).
  { rewrite <- rev_app_distr, <- Heq, rev_involutive. reflexivity. }
  destruct (rev (lstrip_by p (rev (c :: s)))) as [|d r].
  - simpl in Hs. exfalso.
    assert (Hin : In c (rev pre)) by (rewrite <- Hs; left; reflexivity).
    apply in_rev in Hin. rewrite Forall_forall in Hpre.
    apply list_elem_of_In in Hin. rewrite (Hpre c Hin) in Hc. discriminate.
  - simpl in Hs. injection Hs as <- _. eauto.
Qed.

Lemma one_line_no_LF (x : str) :
  one_line x -> forall r c, x = r ++ [c] -> Ascii.eqb LF c = false.
Proof.
  intros Hx r c ->. apply Forall_app in Hx as [_ Hc].
  apply Forall_cons in Hc as [Hc _].
  destruct (Ascii.eqb LF c) eqn:He; [|reflexivity].
  apply Ascii.eqb_eq in He. subst c. discriminate.
Qed.

Lemma plain_lines_read (lines cmds : list str) :
  Forall (fun x => x <> [] /\ one_line x) lines ->
  for_each plain_line cmds lines = Ok (cmds ++ lines).
Proof.
  intros Hall. revert cmds.
  induction Hall as [|x lines [Hx Hone] Hall IH]; intros cmds; simpl.
  - rewrite app_nil_r. reflexivity.
  - unfold plain_line at 1. cbv zeta. unfold rstrip_char.
    rewrite (rstrip_by_id _ x (one_line_no_LF x Hone)).
    destruct x; [congruence|]. cbn [truthy negb bind].
    rewrite IH, <- app_assoc. reflexivity.
Qed.

(** X11. A plain history file is read back line by line: a file holding
    non-empty one-line commands separated by LF, with or without a final LF,
    gives those commands as its raw entries, and the result is their
    windowed, deduplicated, newest-first list. *)
Theorem plain_file_round_trip (fs : str -> file) (p : str) (lines : list str)
  (fin : str) (max_lines : Z) :
  contains p (lit "fish_history") = false ->
  Forall (fun x => x <> [] /\ one_line x) lines ->
  fin = [] \/ fin = [LF] ->
  fs p = Text (join [LF] lines ++ fin) ->
  for_each (read_path fs) [] [p] = Ok lines /\
  read_history fs [p] max_lines = Ok (first_occurrences (rev (window max_lines lines))).
Proof.
  intros Hplain Hall Hfin Hfs.
  assert (Hraw : for_each (read_path fs) [] [p] = Ok lines).
  { simpl. unfold read_path. rewrite Hfs, Hplain.
    destruct lines as [|x lines].
    - destruct Hfin as [-> | ->]; reflexivity.
    - rewrite splitlines_join by (try discriminate; assumption).
      rewrite plain_lines_read by exact Hall. reflexivity. }
  split; [exact Hraw|].
  unfold read_history. rewrite Hraw. cbn [bind].
  rewrite dedupe_first_occurrences. reflexivity.
Qed.

Lemma marker_line_stripped (c : str) :
  c <> [] -> stripped c -> stripped (lit "- cmd: " ++ c).
Proof.
  intros Hne [_ Hlast]. split.
  - intros d r [= <- _]. reflexivity.
  - intros r d Hr. destruct c as [|c0 c] using rev_ind; [congruence|].
    rewrite app_assoc in Hr. apply app_inj_tail in Hr as [_ <-].
    apply (Hlast c c0). reflexivity.
Qed.

Lemma fish_cmd_line (cmds : list str) (c : str) :
  c <> [] -> stripped c ->
  fish_line cmds (lit "- cmd: " ++ c) = Ok (cmds ++ [c]).
Proof.
  intros Hne Hc. unfold fish_line. cbv zeta.
  rewrite (strip_stripped _ (marker_line_stripped c Hne Hc)).
  change (startswith (lit "- cmd: " ++ c) (lit "- cmd:")) with true. cbv iota.
  change (getitem (split_once COLON (lit "- cmd: " ++ c) []) 1) with (Ok (SPACE :: c)).
  cbn [bind].
  assert (Hs : strip (SPACE :: c) = c).
  { unfold strip. change (lstrip_by isspace (SPACE :: c)) with (lstrip_by isspace c).
    apply strip_stripped. exact Hc. }
  rewrite Hs. destruct c; [congruence | reflexivity].
Qed.

Lemma fish_when_line (cmds : list str) (t : str) :
  fish_line cmds (lit "  when: " ++ t) = Ok cmds.
Proof.
  unfold fish_line. cbv zeta. unfold strip.
  change (lstrip_by isspace (lit "  when: " ++ t)) with (lit "when: " ++ t).
  destruct (rstrip_by_head isspace "w"%char (lit "hen: " ++ t) eq_refl) as [r Hr].
  change ("w"%char :: lit "hen: " ++ t) with (lit "when: " ++ t) in Hr.
  rewrite Hr. reflexivity.
Qed.

Lemma fish_entries_read (entries : list (str * str)) (cmds : list str) :
  Forall (fun e => fst e <> [] /\ stripped (fst e) /\ one_line (fst e)
                   /\ one_line (snd e)) entries ->
  for_each fish_line cmds
    (flat_map (fun e => [lit "- cmd: " ++ fst e; lit "  when: " ++ snd e]) entries)
  = Ok (cmds ++ map fst entries).
Proof.
  intros Hall. revert cmds.
  induction Hall as [|e entries [Hne [Hst _]] Hall IH]; intros cmds.
  - simpl. rewrite app_nil_r. reflexivity.
  - cbn [flat_map app for_each]. rewrite fish_cmd_line by assumption.
    cbn [bind]. rewrite fish_when_line. cbn [bind].
    rewrite IH, <- app_assoc. reflexivity.
Qed.

(** X12. A fish history in fish's own layout is read back as its commands:
    for entries written as a line "- cmd: c" followed by a line
    "  when: t", with every [c] non-empty, one line long and without outer
    whitespace, the raw entries are the commands [c], colons in them
    included. *)
Theorem fish_file_round_trip (fs : str -> file) (p : str)
  (entries : list (str * str)) (fin : str) :
  contains p (lit "fish_history") = true ->
  Forall (fun e => fst e <> [] /\ stripped (fst e) /\ one_line (fst e)
                   /\ one_line (snd e)) entries ->
  fin = [] \/ fin = [LF] ->
  fs p = Text (join [LF]
                 (flat_map (fun e => [lit "- cmd: " ++ fst e; lit "  when: " ++ snd e])
                    entries) ++ fin) ->
  for_each (read_path fs) [] [p] = Ok (map fst entries).
Proof.
  intros Hfish Hall Hfin Hfs. simpl. unfold read_path. rewrite Hfs, Hfish.
  destruct entries as [|e0 entries0].
  { destruct Hfin as [-> | ->]; reflexivity. }
  rewrite splitlines_join; [| | |exact Hfin].
  - rewrite fish_entries_read by exact Hall. reflexivity.
  - discriminate.
  - apply Forall_forall. intros x Hx.
    apply list_elem_of_In, in_flat_map in Hx as [e [He Hx]].
    apply list_elem_of_In in He. rewrite Forall_forall in Hall.
    destruct (Hall e He) as [_ [_ [Hc Ht]]].
    destruct Hx as [<- | [<- | []]].
    + split; [discriminate|]. apply Forall_app. split; [|exact Hc].
      repeat constructor.
    + split; [discriminate|]. apply Forall_app. split; [|exact Ht].
      repeat constructor.
Qed.

(** X13. Ranking a normalised history keeps it normalised: the ranked list
    has no duplicates and holds exactly the entries of the history. *)
Theorem ranked_history_duplicate_free (partial_ratio : str -> str -> Q)
  (fs : str -> file) (paths : list str) (max_lines : Z) (query : option str) :
  exists history out,
    read_history fs paths max_lines = Ok history /\
    sort_by_similarity partial_ratio query history = Ok out /\
    NoDup out /\
    forall x, x ∈ out <-> x ∈ history.
Proof.
  destruct (raw_entries_ok fs paths) as [raw Hraw].
  set (history := dedupe (window max_lines raw)).
  destruct (sort_by_similarity_perm partial_ratio query history) as [out [Hout Hperm]].
  exists history, out. split; [|split; [exact Hout | split]].
  - unfold read_history. rewrite Hraw. reflexivity.
  - rewrite <- Hperm.
    unfold history. rewrite dedupe_first_occurrences. apply first_occurrences_NoDup.
  - intros x. rewrite Hperm. reflexivity.
Qed.

(** * History locations *)

Lemma substring_across (q a b : str) (c : ascii) :
  q <> [] -> ~ In c q ->
  Substring q (a ++ c :: b) -> Substring q a \/ Substring q b.
Proof.
  intros Hq Hc Hs. apply substring_split in Hs as [pre [post Heq]].
  symmetry in Heq. apply app_eq_inv in Heq as [[k [-> Hk]] | [k [-> Hk]]].
  - destruct k as [|d k].
    + simpl in Hk. destruct q as [|d q]; [congruence|].
      injection Hk as <- _. exfalso. apply Hc. left. reflexivity.
    + injection Hk as <- ->. right. apply substring_split. eauto.
  - apply app_eq_inv in Hk as [[k' [-> Hk']] | [k' [-> Hk']]].
    + destruct k' as [|d k'].
      * left. apply substring_split. exists pre, []. rewrite ?app_nil_r. reflexivity.
      * injection Hk' as <- _. exfalso. apply Hc. apply in_or_app. right. left. reflexivity.
    + left. apply substring_split. exists pre, k'. rewrite <- ?app_assoc. reflexivity.
Qed.

Lemma path_str_snoc (home : path) (name : str) :
  path_str (home ++ [name]) = flat_map (fun c => SLASH :: c) home ++ SLASH :: name.
Proof.
  unfold path_str. destruct (home ++ [name]) eqn:He.
  - destruct home; discriminate.
  - rewrite <- He, flat_map_app. simpl. rewrite app_nil_r. reflexivity.
Qed.

Lemma home_contains (q : str) (home : path) :
  q <> [] -> contains [SLASH] q = false ->
  (Substring q (flat_map (fun c => SLASH :: c) home) <-> Substring q (path_str home)).
Proof.
  intros Hq Hroot. destruct home as [|c home]; [|reflexivity].
  simpl. split.
  - intros [pos Ho]. apply occurs_at_nil in Ho as Hp. subst pos.
    destruct Ho as [pre [post [He _]]]. destruct pre, q; try discriminate; congruence.
  - intros Hs. apply contains_spec in Hs. congruence.
Qed.

(** X14. Which format a located history is read in: the fish history is
    always read in the fish format, and the bash and zsh histories are read
    in it exactly when the path of the home directory itself contains
    "fish_history"; otherwise they are read as plain lines. *)
Theorem located_history_format (home : path) :
  detect_history_paths home None
  = [home ++ [lit ".bash_history"]; home ++ [lit ".zsh_history"];
     home ++ [lit ".local"; lit "share"; lit "fish"; lit "fish_history"]] /\
  contains (path_str (home ++ [lit ".local"; lit "share"; lit "fish";
                               lit "fish_history"])) (lit "fish_history") = true /\
  contains (path_str (home ++ [lit ".bash_history"])) (lit "fish_history")
  = contains (path_str home) (lit "fish_history") /\
  contains (path_str (home ++ [lit ".zsh_history"])) (lit "fish_history")
  = contains (path_str home) (lit "fish_history").
Proof.
  assert (Hname : forall name,
             contains name (lit "fish_history") = false ->
             contains (path_str (home ++ [name])) (lit "fish_history")
             = contains (path_str home) (lit "fish_history")).
  { intros name Hn. rewrite path_str_snoc.
    destruct (contains (path_str home) (lit "fish_history")) eqn:Hh.
    - apply contains_spec. apply contains_spec in Hh.
      apply home_contains in Hh; [|discriminate | reflexivity].
      apply substring_split in Hh as [pre [post ->]].
      apply substring_split. exists pre, (post ++ SLASH :: name).
      rewrite <- !app_assoc. reflexivity.
    - apply contains_false. intros Hs.
      apply substring_across in Hs as [Hs | Hs].
      + apply home_contains in Hs; [|discriminate | reflexivity].
        apply contains_spec in Hs. congruence.
      + apply contains_spec in Hs. congruence.
      + discriminate.
      + vm_compute. intuition discriminate. }
  split; [reflexivity|]. split; [|split; apply Hname; reflexivity].
  apply contains_spec.
  change (home ++ [lit ".local"; lit "share"; lit "fish"; lit "fish_history"])
    with (home ++ [lit ".local"; lit "share"; lit "fish"] ++ [lit "fish_history"]).
  rewrite app_assoc, path_str_snoc. apply substring_split.
  eexists (_ ++ [SLASH]), []. rewrite app_nil_r, <- app_assoc. reflexivity.
Qed.

(** X15. A shell name selects at most one path, and a name other than
    "bash", "zsh" and "fish" (in this spelling) selects none. *)
Theorem detect_history_paths_one_shell (home : path) (shell : str) :
  (length (detect_history_paths home (Some shell)) <= 1)%nat /\
  (detect_history_paths home (Some shell) = [] <->
   shell <> lit "bash" /\ shell <> lit "zsh" /\ shell <> lit "fish").
Proof.
  unfold detect_history_paths, shell_wanted. cbv zeta.
  destruct (str_eqb shell (lit "bash")) eqn:Hb.
  { apply str_eqb_eq in Hb. subst shell. simpl. split; [lia|].
    split; [discriminate | intros [H _]; congruence]. }
  destruct (str_eqb shell (lit "zsh")) eqn:Hz.
  { apply str_eqb_eq in Hz. subst shell. simpl. split; [lia|].
    split; [discriminate | intros [_ [H _]]; congruence]. }
  destruct (str_eqb shell (lit "fish")) eqn:Hf.
  { apply str_eqb_eq in Hf. subst shell. simpl. split; [lia|].
    split; [discriminate | intros [_ [_ H]]; congruence]. }
  apply str_eqb_neq in Hb, Hz, Hf. simpl. split; [lia|].
  split; [auto | reflexivity].
Qed.

(** * The command line *)


(** What the picker call leaves behind. *)
Lemma call_fzf_cases (w : env) (items : list str) (query : option str)
  (sorted : bool) :
  (call_fzf w items query sorted = ([], None)) \/
  exists cmd,
    (call_fzf w items query sorted = ([RunPicker cmd (join [LF] items)], None)) \/
    exists stdout,
      env_picker w cmd (join [LF] items) = Some (0%Z, stdout) /\
      call_fzf w items query sorted
      = ([RunPicker cmd (join [LF] items)], Some (strip stdout)).
Proof.
  unfold call_fzf. destruct (env_which_fzf w) as [fzf|]; [|left; reflexivity].
  destruct (negb (truthy fzf)); [left; reflexivity|]. cbv zeta.
  match goal with
  | |- context [env_picker w ?c ?i] =>
      right; exists c; destruct (env_picker w c i) as [[rc stdout]|] eqn:Hrun
  end; [|left; reflexivity].
  destruct (rc =? 0)%Z eqn:Hrc; simpl; [|left; reflexivity].
  apply Z.eqb_eq in Hrc. subst rc. right. exists stdout. split; reflexivity.
Qed.

Section Main.
Variable partial_ratio : str -> str -> Q.

(** The list handed to the picker: the history, ranked when a query is
    given. *)
Lemma main_items (query : option str) (history : list str) :
  exists items,
    (if negb (absent query)
     then sort_by_similarity partial_ratio query history
     else Ok history) = Ok items /\
    Permutation history items /\
    (absent query = true -> items = history).
Proof.
  destruct (absent query) eqn:Habs; simpl.
  - exists history. split; [reflexivity|]. split; [reflexivity | auto].
  - destruct (sort_by_similarity_perm partial_ratio query history) as [items [Hi Hp]].
    exists items. split; [exact Hi|]. split; [exact Hp | discriminate].
Qed.


(** The outcomes of [main], by what the picker returned. *)
Lemma main_outcome (w : env) (query : option str) (dry_run : bool) :
  exists history items,
    read_history (env_fs w)
      (map path_str (detect_history_paths (env_home w) None)) default_max_lines
    = Ok history /\
    Forall (fun x => x <> [] /\ one_line x) history /\
    Permutation history items /\
    (absent query = true -> items = history) /\
    ((history = [] /\
      main partial_ratio w query dry_run = Ok ([Stderr (lit "No history found.")], 2%Z))
     \/
     (history <> [] /\
      exists picked selected,
        call_fzf w items query (negb (absent query)) = (picked, selected) /\
        ((exists tail, (selected = None \/ selected = Some []) /\
             main partial_ratio w query dry_run = Ok (picked ++ tail, 1%Z) /\
             forall ev, ev ∈ tail -> exists msg, ev = Stderr msg)
         \/
         (exists c, selected = Some c /\ c <> [] /\
             main partial_ratio w query dry_run
             = Ok (if dry_run then (picked ++ [Stdout c], 0%Z)
                   else (picked ++ [Stdout c] ++ fst (run_command w c),
                         snd (run_command w c))))))).
Proof.
  destruct (history_wellformed (env_fs w)
              (map path_str (detect_history_paths (env_home w) None))
              default_max_lines) as [history [Hh Hwf]].
  destruct (main_items query history) as [items [Hi [Hperm Hsame]]].
  exists history, items. split; [exact Hh|]. split; [exact Hwf|].
  split; [exact Hperm|]. split; [exact Hsame|].
  destruct history as [|h history].
  { left. split; [reflexivity|]. unfold main. cbv zeta. rewrite Hh. reflexivity. }
  right. split; [discriminate|].
  destruct (call_fzf w items query (negb (absent query))) as [picked selected] eqn:Hcall.
  exists picked, selected. split; [reflexivity|].
  unfold main. cbv zeta. rewrite Hh. cbn [bind truthy negb]. cbv iota.
  rewrite Hi. cbn [bind]. rewrite Hcall.
  destruct selected as [[|c0 c]|].
  - left. eexists. split; [right; reflexivity|]. cbn [truthy negb]. cbv iota.
    split; [reflexivity|].
    intros ev Hev. destruct (absent (env_which_fzf w)).
    + apply list_elem_of_singleton in Hev. eauto.
    + inversion Hev.
  - right. exists (c0 :: c). split; [reflexivity|]. split; [discriminate|].
    cbn [truthy negb]. cbv iota. destruct dry_run; cbn [negb]; cbv iota.
    + reflexivity.
    + destruct (run_command w (c0 :: c)) as [ran rc]. reflexivity.
  - left. eexists. split; [left; reflexivity|]. split; [reflexivity|].
    intros ev Hev. destruct (absent (env_which_fzf w)).
    + apply list_elem_of_singleton in Hev. eauto.
    + inversion Hev.
Qed.

Lemma picked_no_shell (w : env) (items : list str) (query : option str)
  (sorted : bool) (picked : list event) (selected : option str) (c : str) :
  call_fzf w items query sorted = (picked, selected) -> RunShell c ∉ picked.
Proof.
  intros Hcall Hin.
  destruct (call_fzf_cases w items query sorted) as [H | [cmd [H | [stdout [_ H]]]]];
    rewrite H in Hcall; injection Hcall as <- <-.
  - inversion Hin.
  - apply list_elem_of_singleton in Hin. discriminate.
  - apply list_elem_of_singleton in Hin. discriminate.
Qed.

(** X17. A dry run never executes anything: [main] ends with status 0, 1 or
    2 and no shell command is run. *)
Theorem main_dry_run (w : env) (query : option str) :
  exists trace status,
    main partial_ratio w query true = Ok (trace, status) /\
    (forall c, RunShell c ∉ trace) /\
    (status = 0 \/ status = 1 \/ status = 2)%Z.
Proof.
  destruct (main_outcome w query true)
    as [history [items [_ [_ [_ [_ [[_ Hm] | [_ [picked [selected [Hcall Hm]]]]]]]]]]].
  - eexists _, _. split; [exact Hm|]. split; [|auto].
    intros c Hin. apply list_elem_of_singleton in Hin. discriminate.
  - destruct Hm as [[tail [_ [Hm Htail]]] | [c [_ [_ Hm]]]].
    + eexists _, _. split; [exact Hm|]. split; [|auto].
      intros c Hin. apply elem_of_app in Hin as [Hin | Hin].
      * exact (picked_no_shell _ _ _ _ _ _ _ Hcall Hin).
      * destruct (Htail _ Hin) as [msg Hmsg]. discriminate.
    + eexists _, _. split; [exact Hm|]. split; [|auto].
      intros c' Hin. apply elem_of_app in Hin as [Hin | Hin].
      * exact (picked_no_shell _ _ _ _ _ _ _ Hcall Hin).
      * apply list_elem_of_singleton in Hin. discriminate.
Qed.



End Main.

(** * The further properties at concrete inputs *)






Lemma exact_match_ranks_first_witness :
  exists x rest,
    sort_by_similarity (fun _ _ => 0%Q) (Some (lit "ls")) [lit "ls -la"; lit "LS"]
    = Ok (x :: rest) /\
    lower x = lower (lit "ls").
Proof.
  apply (exact_match_ranks_first (fun _ _ => 0%Q) constant_score_in_range
           (lit "ls") [lit "ls -la"; lit "LS"] (lit "LS")).
  - discriminate.
  - right. left.
  - reflexivity.
Defined.



Lemma window_negative_witness :
  window (-1) [lit "a"; lit "b"; lit "c"] = [lit "b"; lit "c"].
Proof.
  apply (window_negative (-1) [lit "a"; lit "b"; lit "c"]). lia.
Defined.

Lemma read_history_newest_first_witness :
  exists rest,
    read_history (fun _ => Text (lit "cd" ++ [LF] ++ lit "ls" ++ [LF]))
      [lit "/home/u/.bash_history"] 10
    = Ok (lit "ls" :: rest).
Proof.
  apply (read_history_newest_first
           (fun _ => Text (lit "cd" ++ [LF] ++ lit "ls" ++ [LF]))
           [lit "/home/u/.bash_history"] 10 [lit "cd"] (lit "ls")).
  - lia.
  - reflexivity.
Defined.

Lemma plain_file_round_trip_witness :
  for_each (read_path (fun _ => Text (join [LF] [lit "cd /tmp"; lit "ls"] ++ [LF])))
    [] [lit "/home/u/.bash_history"]
  = Ok [lit "cd /tmp"; lit "ls"] /\
  read_history (fun _ => Text (join [LF] [lit "cd /tmp"; lit "ls"] ++ [LF]))
    [lit "/home/u/.bash_history"] 10
  = Ok (first_occurrences (rev (window 10 [lit "cd /tmp"; lit "ls"]))).
Proof.
  apply (plain_file_round_trip
           (fun _ => Text (join [LF] [lit "cd /tmp"; lit "ls"] ++ [LF]))
           (lit "/home/u/.bash_history") [lit "cd /tmp"; lit "ls"] [LF] 10).
  - reflexivity.
  - repeat constructor; discriminate.
  - right. reflexivity.
  - reflexivity.
Defined.

Lemma ls_stripped : stripped (lit "ls").
Proof.
  split.
  - intros c r [= <- _]. reflexivity.
  - intros r c Hr. change (lit "ls") with ([ "l"%char ] ++ [ "s"%char ]) in Hr.
    apply app_inj_tail in Hr as [_ <-]. reflexivity.
Qed.

Lemma fish_file_round_trip_witness :
  for_each
    (read_path
       (fun _ => Text (join [LF]
                         (flat_map (fun e => [lit "- cmd: " ++ fst e;
                                              lit "  when: " ++ snd e])
                            [(lit "ls", lit "1700000000")]) ++ [LF])))
    [] [lit "/home/u/.local/share/fish/fish_history"]
  = Ok (map fst [(lit "ls", lit "1700000000")]).
Proof.
  apply (fish_file_round_trip
           (fun _ => Text (join [LF]
                             (flat_map (fun e => [lit "- cmd: " ++ fst e;
                                                  lit "  when: " ++ snd e])
                                [(lit "ls", lit "1700000000")]) ++ [LF]))
           (lit "/home/u/.local/share/fish/fish_history")
           [(lit "ls", lit "1700000000")] [LF]).
  - reflexivity.
  - constructor; [|constructor]. split; [discriminate|].
    split; [exact ls_stripped|]. split; repeat constructor.
  - right. reflexivity.
  - reflexivity.
Defined.

